(** * A shallow embedding of the chess session server

    The server module is the second part of [client/src/socket.js] in the
    sources: the socket handlers, the timer functions and [saveGame].

    The server keeps three pieces of mutable state: the [games] Map, the
    [matchmakingQueue] array and, inside every connection closure, a
    [gameTimeouts] Map of timer handles.  Every socket handler is a
    function from the server state to a new state and the list of messages
    it emitted; a handler that dereferences [null] or [undefined] ends in
    [TypeError].  Wall-clock readings ([Date.now()]), session keys (the
    first eight characters of [crypto.randomUUID()]) and the coin of
    [Math.random()] are inputs of the event that triggers the handler. *)

From Stdlib Require Import ZArith List String Ascii Bool Arith Lia.
Import ListNotations.

Set Implicit Arguments.

Local Open Scope string_scope.
Local Open Scope list_scope.
Local Open Scope Z_scope.

(** ** Results of code that may throw *)

Inductive res (A : Type) : Type :=
| Ret (a : A)
| TypeError.
Arguments Ret {A} a.
Arguments TypeError {A}.

Definition bind {A B : Type} (m : res A) (k : A -> res B) : res B :=
  match m with
  | Ret a => k a
  | TypeError => TypeError
  end.

Notation "x <- m ;; k" := (bind m (fun x => k))
  (at level 61, m at next level, right associativity).

(** ** Keys with a decidable equality *)

Class KeyEq (K : Type) := {
  keqb : K -> K -> bool;
  keqb_spec : forall x y, reflect (x = y) (keqb x y)
}.

#[export] Instance KeyEq_string : KeyEq string :=
  {| keqb := String.eqb; keqb_spec := String.eqb_spec |}.

#[export] Instance KeyEq_nat : KeyEq nat :=
  {| keqb := Nat.eqb; keqb_spec := Nat.eqb_spec |}.

Definition pair_eqb {A B : Type} `{KeyEq A} `{KeyEq B} (x y : A * B) : bool :=
  keqb (fst x) (fst y) && keqb (snd x) (snd y).

Definition pair_eqb_spec {A B : Type} `{KeyEq A} `{KeyEq B} (x y : A * B) :
  reflect (x = y) (pair_eqb x y).
Proof.
  destruct x as [a b], y as [a' b']; unfold pair_eqb; simpl.
  destruct (keqb_spec a a'); destruct (keqb_spec b b'); simpl;
    constructor; congruence.
Defined.

#[export] Instance KeyEq_pair {A B : Type} `{KeyEq A} `{KeyEq B} : KeyEq (A * B) :=
  {| keqb := pair_eqb; keqb_spec := pair_eqb_spec |}.

(** ** JavaScript [Map]: insertion ordered, [set] on a present key keeps
    its position *)

Module JsMap.
Section Ops.
Context {K V : Type} `{KeyEq K}.

Definition t := list (K * V).

Definition empty : t := [].

Fixpoint get (m : t) (k : K) : option V :=
  match m with
  | [] => None
  | (k', v) :: m' => if keqb k' k then Some v else get m' k
  end.

Definition has (m : t) (k : K) : bool :=
  match get m k with Some _ => true | None => false end.

Fixpoint set (m : t) (k : K) (v : V) : t :=
  match m with
  | [] => [(k, v)]
  | (k', v') :: m' => if keqb k' k then (k', v) :: m' else (k', v') :: set m' k v
  end.

Fixpoint delete (m : t) (k : K) : t :=
  match m with
  | [] => []
  | (k', v') :: m' => if keqb k' k then delete m' k else (k', v') :: delete m' k
  end.

(** A field assignment on the object stored under [k]: visible in the
    Map exactly when that object is still stored there. *)
Definition modify (m : t) (k : K) (f : V -> V) : t :=
  match get m k with
  | Some v => set m k (f v)
  | None => m
  end.

Definition keys (m : t) : list K := map fst m.
End Ops.
Arguments t : clear implicits.
End JsMap.

(** ** JavaScript arrays read and written by index *)

Section JsArray.
Context {A : Type} (undef : A).

(** [a[i]]: [undefined] out of range. *)
Definition js_get (a : list A) (i : nat) : A := nth i a undef.

(** [a[i] = v]: replaces in range, extends with holes out of range. *)
Fixpoint js_set (a : list A) (i : nat) (v : A) : list A :=
  match a, i with
  | [], O => [v]
  | [], S i' => undef :: js_set [] i' v
  | _ :: a', O => v :: a'
  | x :: a', S i' => x :: js_set a' i' v
  end.
End JsArray.

(** ** Data model *)

Definition SocketId := string.
Definition GameId := string.
Definition User := string.
Definition TimerId := nat.
Definition Pos := (nat * nat)%type.

Inductive Color := white | black.

Definition Color_eqb (a b : Color) : bool :=
  match a, b with
  | white, white | black, black => true
  | _, _ => false
  end.

Definition color_name (c : Color) : string :=
  match c with white => "white" | black => "black" end.

(** A board cell: a string (the empty string is an empty square), or
    [undefined] when a row was read or extended out of range. *)
Inductive Cell :=
| Undef
| Str (s : string).

Definition Board := list (list Cell).

Definition initialBoard : Board :=
  [ [Str "r"; Str "n"; Str "b"; Str "q"; Str "k"; Str "b"; Str "n"; Str "r"];
    [Str "p"; Str "p"; Str "p"; Str "p"; Str "p"; Str "p"; Str "p"; Str "p"];
    [Str ""; Str ""; Str ""; Str ""; Str ""; Str ""; Str ""; Str ""];
    [Str ""; Str ""; Str ""; Str ""; Str ""; Str ""; Str ""; Str ""];
    [Str ""; Str ""; Str ""; Str ""; Str ""; Str ""; Str ""; Str ""];
    [Str ""; Str ""; Str ""; Str ""; Str ""; Str ""; Str ""; Str ""];
    [Str "P"; Str "P"; Str "P"; Str "P"; Str "P"; Str "P"; Str "P"; Str "P"];
    [Str "R"; Str "N"; Str "B"; Str "Q"; Str "K"; Str "B"; Str "N"; Str "R"] ].

(** The socket object: its id and [socket.data.user] as the
    authentication middleware left it. *)
Record Socket := { id : SocketId; user : option User }.

(** One side of [game.players]: [{ id, user }]. *)
Record Player := { p_id : SocketId; p_user : option User }.

Record Game := {
  board : Board;
  turn : Color;
  players_white : Player;
  players_black : option Player;
  check : option Color;
  timeControl : Z;
  whiteTime : Z;
  blackTime : Z;
  lastMoveTime : option Z
}.

Record Status := { winner : string; reason : string }.

Inductive Msg :=
| GAME_ERROR (message : string)
| GAME_CREATED (gameId : GameId) (wTime bTime : Z)
| GAME_FINDING
| GAME_JOINED (gameId : GameId) (color : Color) (b : Board) (wTime bTime : Z)
| GAME_STATE (b : Board) (t : Color) (players : option nat)
             (chk : option Color) (wTime bTime : Z) (last : option Z)
| GAME_OVER (s : Status).

Inductive Output :=
| Emit (to : SocketId) (m : Msg)           (* socket.emit(...) *)
| Broadcast (room : GameId) (m : Msg)      (* io.to(ROOMS.game(gameId)).emit(...) *)
| DbSave (gameId : GameId) (w b : User) (s : Status)
| LogNotSaved (gameId : GameId).

(** A pending [setTimeout] callback: the connection closure that created
    it, the arguments of the [handleTimeout] call it holds, and the
    instant from which the runtime may run it. *)
Record Timer := {
  t_owner : SocketId;
  t_game : GameId;
  t_color : Color;
  t_due : Z
}.

Record Server := {
  games : JsMap.t GameId Game;
  matchmakingQueue : list Socket;
  (** the [gameTimeouts] Map of every connection closure, keyed by the
      connection that owns the closure *)
  gameTimeouts : JsMap.t (SocketId * GameId) TimerId;
  (** one entry per GAME_FIND_CANCEL listener registered on a socket *)
  cancelListeners : list SocketId;
  (** [socket.join(room)] *)
  rooms : list (SocketId * GameId);
  (** the runtime's table of pending timers and its next fresh handle *)
  timers : JsMap.t TimerId Timer;
  nextTimer : TimerId
}.

Definition initialServer : Server :=
  {| games := JsMap.empty; matchmakingQueue := [];
     gameTimeouts := JsMap.empty; cancelListeners := [];
     rooms := []; timers := JsMap.empty; nextTimer := O |}.

Definition with_games (st : Server) (g : JsMap.t GameId Game) : Server :=
  {| games := g; matchmakingQueue := matchmakingQueue st;
     gameTimeouts := gameTimeouts st; cancelListeners := cancelListeners st;
     rooms := rooms st; timers := timers st; nextTimer := nextTimer st |}.

Definition with_queue (st : Server) (q : list Socket) : Server :=
  {| games := games st; matchmakingQueue := q;
     gameTimeouts := gameTimeouts st; cancelListeners := cancelListeners st;
     rooms := rooms st; timers := timers st; nextTimer := nextTimer st |}.

Definition with_gameTimeouts (st : Server)
    (m : JsMap.t (SocketId * GameId) TimerId) : Server :=
  {| games := games st; matchmakingQueue := matchmakingQueue st;
     gameTimeouts := m; cancelListeners := cancelListeners st;
     rooms := rooms st; timers := timers st; nextTimer := nextTimer st |}.

Definition with_cancelListeners (st : Server) (l : list SocketId) : Server :=
  {| games := games st; matchmakingQueue := matchmakingQueue st;
     gameTimeouts := gameTimeouts st; cancelListeners := l;
     rooms := rooms st; timers := timers st; nextTimer := nextTimer st |}.

Definition with_rooms (st : Server) (r : list (SocketId * GameId)) : Server :=
  {| games := games st; matchmakingQueue := matchmakingQueue st;
     gameTimeouts := gameTimeouts st; cancelListeners := cancelListeners st;
     rooms := r; timers := timers st; nextTimer := nextTimer st |}.

Definition with_timers (st : Server) (t : JsMap.t TimerId Timer) (n : TimerId) : Server :=
  {| games := games st; matchmakingQueue := matchmakingQueue st;
     gameTimeouts := gameTimeouts st; cancelListeners := cancelListeners st;
     rooms := rooms st; timers := t; nextTimer := n |}.

(** Field assignments on a game object. *)
Definition set_black (g : Game) (p : option Player) : Game :=
  {| board := board g; turn := turn g; players_white := players_white g;
     players_black := p; check := check g; timeControl := timeControl g;
     whiteTime := whiteTime g; blackTime := blackTime g;
     lastMoveTime := lastMoveTime g |}.

Definition set_lastMoveTime (g : Game) (t : option Z) : Game :=
  {| board := board g; turn := turn g; players_white := players_white g;
     players_black := players_black g; check := check g;
     timeControl := timeControl g; whiteTime := whiteTime g;
     blackTime := blackTime g; lastMoveTime := t |}.

Definition set_whiteTime (g : Game) (t : Z) : Game :=
  {| board := board g; turn := turn g; players_white := players_white g;
     players_black := players_black g; check := check g;
     timeControl := timeControl g; whiteTime := t;
     blackTime := blackTime g; lastMoveTime := lastMoveTime g |}.

Definition set_blackTime (g : Game) (t : Z) : Game :=
  {| board := board g; turn := turn g; players_white := players_white g;
     players_black := players_black g; check := check g;
     timeControl := timeControl g; whiteTime := whiteTime g;
     blackTime := t; lastMoveTime := lastMoveTime g |}.

Definition set_position (g : Game) (b : Board) (t : Color) (c : option Color) : Game :=
  {| board := b; turn := t; players_white := players_white g;
     players_black := players_black g; check := c;
     timeControl := timeControl g; whiteTime := whiteTime g;
     blackTime := blackTime g; lastMoveTime := lastMoveTime g |}.

(** ** The rules oracle

    The WebAssembly validator and [chessUtils.js] are external
    collaborators; the server only calls them.  [isValidMove_c] receives
    the 64 byte buffer that [writeBoardToPtr] fills. *)

Definition Probe := Board -> Pos -> Pos -> Color -> res bool.

Record RulesOracle := {
  isValidMove_c : list Z -> nat -> nat -> nat -> nat -> bool -> bool;
  isKingInCheck : Board -> Color -> Probe -> bool;
  getGameStatus : Board -> Color -> Probe -> option Status
}.

(** [board[r][c] ? board[r][c].charCodeAt(0) : 32] *)
Definition cell_code (c : Cell) : Z :=
  match c with
  | Undef => 32
  | Str EmptyString => 32
  | Str (String a _) => Z.of_nat (nat_of_ascii a)
  end.

Definition row_codes (row : list Cell) : list Z :=
  map (fun c => cell_code (js_get Undef row c)) (seq 0 8).

Fixpoint board_codes (b : Board) (rs : list nat) : res (list Z) :=
  match rs with
  | [] => Ret []
  | r :: rs' =>
      match nth_error b r with
      | None => TypeError                     (* board[r] is undefined *)
      | Some row =>
          rest <- board_codes b rs' ;;
          Ret (row_codes row ++ rest)
      end
  end.

Definition writeBoardToPtr (b : Board) : res (list Z) := board_codes b (seq 0 8).

(** [temp[tr][tc] = board[fr][fc]; temp[fr][fc] = ''], also the three
    assignments that apply an accepted move to the game's board. *)
Definition relocate (b : Board) (from to : Pos) : res Board :=
  let '(fr, fc) := from in
  let '(tr, tc) := to in
  match nth_error b tr, nth_error b fr with
  | Some rowt, Some rowf =>
      let piece := js_get Undef rowf fc in
      let temp := js_set [] b tr (js_set Undef rowt tc piece) in
      match nth_error temp fr with
      | Some rowf' => Ret (js_set [] temp fr (js_set Undef rowf' fc (Str "")))
      | None => TypeError
      end
  | _, _ => TypeError
  end.

Section Handlers.
Variable rules : RulesOracle.

Definition wasmProbe : Probe := fun b f t attackerColor =>
  p <- writeBoardToPtr b ;;
  Ret (isValidMove_c rules p (fst f) (snd f) (fst t) (snd t)
         (Color_eqb attackerColor white)).

Definition isValidMoveWasm (b : Board) (from to : Pos) (t : Color) : res bool :=
  boardPtr <- writeBoardToPtr b ;;
  let ok := isValidMove_c rules boardPtr (fst from) (snd from) (fst to) (snd to)
              (Color_eqb t white) in
  temp <- relocate b from to ;;
  let leavesKingInCheck := isKingInCheck rules temp t wasmProbe in
  Ret (ok && negb leavesKingInCheck).

(** *** saveGame *)
Definition saveGame (gameId : GameId) (g : Game) (s : Status) : list Output :=
  match p_user (players_white g), players_black g with
  | Some w, Some {| p_user := Some b |} => [DbSave gameId w b s]
  | _, _ => [LogNotSaved gameId]
  end.

(** *** Active timeout logic, in the closure of connection [c] *)

Definition clearGameTimeout (c : SocketId) (gameId : GameId) (st : Server) : Server :=
  match JsMap.get (gameTimeouts st) (c, gameId) with
  | Some h =>
      let st1 := with_timers st (JsMap.delete (timers st) h) (nextTimer st) in
      with_gameTimeouts st1 (JsMap.delete (gameTimeouts st1) (c, gameId))
  | None => st
  end.

Definition handleTimeout (c : SocketId) (gameId : GameId) (loserColor : Color)
    (st : Server) : Server * list Output :=
  match JsMap.get (games st) gameId with
  | None => (st, [])
  | Some game =>
      let w := match loserColor with white => "black" | black => "white" end in
      let status := {| winner := w; reason := "Timeout" |} in
      let st1 := with_games st (JsMap.delete (games st) gameId) in
      (with_gameTimeouts st1 (JsMap.delete (gameTimeouts st1) (c, gameId)),
       Broadcast gameId (GAME_OVER status) :: saveGame gameId game status)
  end.

(** The delay Node's [setTimeout(callback, after)] arms the timer with:
    a delay below 1 ms or above [TIMEOUT_MAX] = 2^31 - 1 ms is replaced
    by 1 ms. *)
Definition TIMEOUT_MAX : Z := 2147483647.

Definition setTimeout_delay (after : Z) : Z :=
  if (1 <=? after) && (after <=? TIMEOUT_MAX) then after else 1.

(** [now] is the instant at which [setTimeout] is called. *)
Definition setGameTimeout (c : SocketId) (gameId : GameId) (duration : Z)
    (color : Color) (now : Z) (st : Server) : Server * list Output :=
  let st1 := clearGameTimeout c gameId st in
  if duration <=? 0 then handleTimeout c gameId color st1
  else
    let timeoutId := nextTimer st1 in
    let tm := {| t_owner := c; t_game := gameId; t_color := color;
                 t_due := now + setTimeout_delay (duration + 1000) |} in
    let st2 := with_timers st1 (JsMap.set (timers st1) timeoutId tm) (S timeoutId) in
    (with_gameTimeouts st2 (JsMap.set (gameTimeouts st2) (c, gameId) timeoutId), []).

(** *** GAME_CREATE *)

(** What [payload && payload.timeControl] and [parseInt] make of the
    payload. *)
Inductive TimeControlField :=
| Falsy                  (* no payload, or a falsy timeControl *)
| NotANumber             (* parseInt returned NaN *)
| Minutes (n : Z).       (* parseInt returned n *)

Definition timeMinutes (f : TimeControlField) : Z :=
  match f with
  | Falsy => 10
  | NotANumber => 10
  | Minutes n => n
  end.

Definition newGame (w : Player) (b : option Player) (timeMs : Z) : Game :=
  {| board := initialBoard; turn := white;
     players_white := w; players_black := b; check := None;
     timeControl := timeMs; whiteTime := timeMs; blackTime := timeMs;
     lastMoveTime := None |}.

(** [uuid] is the key the handler stores the session under, the eight
    characters [crypto.randomUUID().slice(0, 8)]; nothing checks that the
    key is free, and [games.set] on a key in use replaces its session. *)
Definition on_create (socket : Socket) (payload : TimeControlField)
    (uuid : GameId) (st : Server) : Server * list Output :=
  match user socket with
  | None => (st, [Emit (id socket) (GAME_ERROR "Authentication required.")])
  | Some u =>
      let gameId := uuid in
      let timeMs := timeMinutes payload * 60 * 1000 in
      let st1 := with_games st
        (JsMap.set (games st) gameId
           (newGame {| p_id := id socket; p_user := Some u |} None timeMs)) in
      let st2 := with_rooms st1 ((id socket, gameId) :: rooms st1) in
      (st2, [Emit (id socket) (GAME_CREATED gameId timeMs timeMs)])
  end.

(** *** GAME_FIND and GAME_FIND_CANCEL *)

(** [findIndex(s => s.id === socket.id)] followed by [splice(index, 1)]. *)
Fixpoint splice_first (sid : SocketId) (q : list Socket) : list Socket :=
  match q with
  | [] => []
  | s :: q' => if String.eqb (id s) sid then q' else s :: splice_first sid q'
  end.

(** [matchmakingQueue.push(socket)] *)
Definition enqueue (socket : Socket) (st : Server) : Server :=
  with_queue st (matchmakingQueue st ++ [socket]).

(** The body of [if (matchmakingQueue.length >= 2)], run in the closure
    of [socket]; the two [shift()] calls take the two oldest entries.
    [uuid] is again the eight characters [crypto.randomUUID().slice(0, 8)]. *)
Definition pair (socket : Socket) (uuid : GameId) (coin : bool) (now : Z)
    (st : Server) : Server * list Output :=
  match matchmakingQueue st with
  | player1Socket :: player2Socket :: q' =>
      let gameId := uuid in
      let p1 := {| p_id := id player1Socket; p_user := user player1Socket |} in
      let p2 := {| p_id := id player2Socket; p_user := user player2Socket |} in
      let players := if coin then (p1, p2) else (p2, p1) in
      let g := newGame (fst players) (Some (snd players)) (10 * 60 * 1000) in
      let st1 := with_queue st q' in
      let st2 := with_games st1 (JsMap.set (games st1) gameId g) in
      let st3 := with_rooms st2
        ((id player2Socket, gameId) :: (id player1Socket, gameId) :: rooms st2) in
      let color_of (s : Socket) :=
        if String.eqb (p_id (fst players)) (id s) then white else black in
      let out1 :=
        [Emit (id player1Socket)
           (GAME_JOINED gameId (color_of player1Socket) (board g)
              (whiteTime g) (blackTime g));
         Emit (id player2Socket)
           (GAME_JOINED gameId (color_of player2Socket) (board g)
              (whiteTime g) (blackTime g));
         Broadcast gameId
           (GAME_STATE (board g) white (Some 2%nat) None
              (whiteTime g) (blackTime g) (lastMoveTime g))] in
      let g' := set_lastMoveTime g (Some now) in
      let st4 := with_games st3 (JsMap.modify (games st3) gameId (fun _ => g')) in
      let '(st5, out2) := setGameTimeout (id socket) gameId (whiteTime g') white now st4 in
      (st5, out1 ++ out2)
  | _ => (st, [])
  end.

Definition on_find (socket : Socket) (uuid : GameId) (coin : bool) (now : Z)
    (st : Server) : Server * list Output :=
  match user socket with
  | None => (st, [Emit (id socket) (GAME_ERROR "Authentication required.")])
  | Some _ =>
      let st0 := with_cancelListeners st (id socket :: cancelListeners st) in
      let st1 := enqueue socket st0 in
      let '(st2, out) := pair socket uuid coin now st1 in
      (st2, Emit (id socket) GAME_FINDING :: out)
  end.

(** Every registered listener runs once. *)
Fixpoint run_cancel (n : nat) (sid : SocketId) (q : list Socket) : list Socket :=
  match n with
  | O => q
  | S n' => run_cancel n' sid (splice_first sid q)
  end.

Definition on_find_cancel (socket : Socket) (st : Server) : Server * list Output :=
  let n := count_occ string_dec (cancelListeners st) (id socket) in
  (with_queue st (run_cancel n (id socket) (matchmakingQueue st)), []).

(** *** GAME_JOIN *)

(** The fields of the game object as they now are, seen through the
    Map as long as the object is still stored under [gameId]. *)
Definition store (st : Server) (gameId : GameId) (g : Game) : Server :=
  with_games st (JsMap.modify (games st) gameId (fun _ => g)).

Definition on_join (socket : Socket) (gameId : GameId) (now : Z)
    (st : Server) : Server * list Output :=
  match user socket with
  | None => (st, [Emit (id socket) (GAME_ERROR "Authentication required.")])
  | Some u =>
      match JsMap.get (games st) gameId with
      | None => (st, [Emit (id socket) (GAME_ERROR "Game not found.")])
      | Some game =>
          match players_black game with
          | Some _ => (st, [Emit (id socket) (GAME_ERROR "Game is full.")])
          | None =>
              if String.eqb (p_id (players_white game)) (id socket)
              then (st, [Emit (id socket) (GAME_ERROR "You have already joined.")])
              else
                let game1 := set_black game (Some {| p_id := id socket; p_user := Some u |}) in
                let st1 := store st gameId game1 in
                let st2 := with_rooms st1 ((id socket, gameId) :: rooms st1) in
                let out1 :=
                  [Emit (id socket)
                     (GAME_JOINED gameId black (board game1)
                        (whiteTime game1) (blackTime game1));
                   Broadcast gameId
                     (GAME_STATE (board game1) (turn game1) (Some 2%nat) (check game1)
                        (whiteTime game1) (blackTime game1) (lastMoveTime game1))] in
                let game2 := set_lastMoveTime game1 (Some now) in
                let st3 := store st2 gameId game2 in
                let '(st4, out2) :=
                  setGameTimeout (id socket) gameId (whiteTime game2) white now st3 in
                (st4, out1 ++ out2)
          end
      end
  end.

(** *** GAME_MOVE *)

(** [if (game.lastMoveTime)]: [null] and [0] are falsy. *)
Definition truthy_time (t : option Z) : option Z :=
  match t with
  | Some z => if z =? 0 then None else Some z
  | None => None
  end.

Definition other (c : Color) : Color :=
  match c with white => black | black => white end.

(** The clock of side [c]. *)
Definition time_of (c : Color) (g : Game) : Z :=
  match c with white => whiteTime g | black => blackTime g end.

(** [(turn === 'white') ? players.white.id : players.black.id] *)
Definition playerSocketId (g : Game) : res SocketId :=
  match turn g with
  | white => Ret (p_id (players_white g))
  | black =>
      match players_black g with
      | Some p => Ret (p_id p)
      | None => TypeError                  (* players.black is null *)
      end
  end.

Definition charge (g : Game) (now : Z) : Game :=
  match truthy_time (lastMoveTime g) with
  | Some last =>
      let elapsed := now - last in
      match turn g with
      | white => set_whiteTime g (whiteTime g - elapsed)
      | black => set_blackTime g (blackTime g - elapsed)
      end
  | None => g
  end.

(** [now1] is read by the timer logic when [lastMoveTime] is truthy,
    [now2] when the new [lastMoveTime] is recorded. *)
Definition on_move (socket : Socket) (gameId : GameId) (from to : Pos)
    (now1 now2 : Z) (st : Server) : res (Server * list Output) :=
  match JsMap.get (games st) gameId with
  | None => Ret (st, [])
  | Some game =>
      let b := board game in
      let t := turn game in
      psid <- playerSocketId game ;;
      if negb (String.eqb (id socket) psid)
      then Ret (st, [Emit (id socket) (GAME_ERROR "It's not your turn.")])
      else
        valid <- isValidMoveWasm b from to t ;;
        if valid then
          let game1 := charge game now1 in
          let st0 := store st gameId game1 in
          if (whiteTime game1 <=? 0) || (blackTime game1 <=? 0) then
            let st1 := clearGameTimeout (id socket) gameId st0 in
            let w := if whiteTime game1 <=? 0 then "black" else "white" in
            let status := {| winner := w; reason := "Timeout" |} in
            Ret (with_games st1 (JsMap.delete (games st1) gameId),
                 Broadcast gameId (GAME_OVER status) :: saveGame gameId game1 status)
          else
            let game2 := set_lastMoveTime game1 (Some now2) in
            let st1 := store st0 gameId game2 in
            let nextColor := match turn game2 with white => black | black => white end in
            let nextTime :=
              match nextColor with white => whiteTime game2 | black => blackTime game2 end in
            let '(st2, out1) :=
              setGameTimeout (id socket) gameId nextTime nextColor now2 st1 in
            b' <- relocate b from to ;;
            let newTurn := match t with white => black | black => white end in
            let inCheck := isKingInCheck rules b' newTurn isValidMoveWasm in
            let game3 :=
              set_position game2 b' newTurn (if inCheck then Some newTurn else None) in
            let st3 := store st2 gameId game3 in
            let out2 :=
              [Broadcast gameId
                 (GAME_STATE (board game3) (turn game3) None (check game3)
                    (whiteTime game3) (blackTime game3) (lastMoveTime game3))] in
            match getGameStatus rules b' newTurn isValidMoveWasm with
            | Some status =>
                Ret (with_games st3 (JsMap.delete (games st3) gameId),
                     out1 ++ out2 ++
                     Broadcast gameId (GAME_OVER status) :: saveGame gameId game3 status)
            | None => Ret (st3, out1 ++ out2)
            end
        else Ret (st, [Emit (id socket) (GAME_ERROR "Invalid move.")])
  end.

(** *** disconnect *)

Definition is_participant (sid : SocketId) (g : Game) : bool :=
  String.eqb (p_id (players_white g)) sid
  || match players_black g with
     | Some p => String.eqb (p_id p) sid
     | None => false
     end.

(** The [for ... of games.entries()] loop up to its [break]. *)
Fixpoint find_participant (sid : SocketId) (m : JsMap.t GameId Game)
    : option (GameId * Game) :=
  match m with
  | [] => None
  | (gameId, g) :: m' =>
      if is_participant sid g then Some (gameId, g) else find_participant sid m'
  end.

Definition on_disconnect (socket : Socket) (st : Server) : Server * list Output :=
  let st0 := with_queue st (splice_first (id socket) (matchmakingQueue st)) in
  match find_participant (id socket) (games st0) with
  | Some (gameId, game) =>
      let st1 := clearGameTimeout (id socket) gameId st0 in
      let w := if String.eqb (p_id (players_white game)) (id socket)
               then "black" else "white" in
      let status := {| winner := w; reason := "Opponent disconnected." |} in
      (with_games st1 (JsMap.delete (games st1) gameId),
       Broadcast gameId (GAME_OVER status) :: saveGame gameId game status)
  | None => (st0, [])
  end.

(** *** A pending timer runs

    The runtime runs the callback of handle [h] once, not before it is
    due and only while it is still in the table of pending timers;
    [clearTimeout] took a cleared handle out of that table. *)
Definition on_timer (h : TimerId) (now : Z) (st : Server) : Server * list Output :=
  match JsMap.get (timers st) h with
  | Some tm =>
      if t_due tm <=? now then
        handleTimeout (t_owner tm) (t_game tm) (t_color tm)
          (with_timers st (JsMap.delete (timers st) h) (nextTimer st))
      else (st, [])
  | None => (st, [])
  end.

(** *** GAME_JOIN and GAME_MOVE on any payload

    [on_join] and [on_move] are the two handlers for a payload that the
    parameter patterns [({ gameId })] and [({ gameId, from, to })] take
    apart into a string [gameId] and two squares [[row, column]] of
    non-negative integers.  A client can send anything; the cases below
    are the payloads without such a shape whose handling the code fixes
    without reference to further properties of arrays. *)

(** What the pattern finds under [gameId].  The keys of [games] are
    strings and [Map.get] compares without conversion, so any value
    that is not a string finds no session. *)
Inductive KeyField :=
| NoKey                      (* absent, or not a string *)
| Key (gameId : GameId).

(** What the pattern finds under [from] or [to]. *)
Inductive SquareField :=
| NotIterable                (* absent, null, a number, a boolean, a plain
                                object: [const [r, c] = v] throws *)
| NoRow                      (* an array whose first item is absent, null,
                                a boolean, or a number that is negative
                                or not an integer: [board[r]] is undefined *)
| Square (p : Pos).          (* an array of two non-negative integers *)

Inductive JoinPayload :=
| NoJoinPayload              (* no argument, or null: the pattern throws *)
| JoinOf (k : KeyField).

Inductive MovePayload :=
| NoMovePayload              (* no argument, or null: the pattern throws *)
| MoveOf (k : KeyField) (from to : SquareField).

Definition on_join_payload (socket : Socket) (payload : JoinPayload) (now : Z)
    (st : Server) : res (Server * list Output) :=
  match payload with
  | NoJoinPayload => TypeError
  | JoinOf (Key gameId) => Ret (on_join socket gameId now st)
  | JoinOf NoKey =>
      match user socket with
      | None => Ret (st, [Emit (id socket) (GAME_ERROR "Authentication required.")])
      | Some _ => Ret (st, [Emit (id socket) (GAME_ERROR "Game not found.")])
      end
  end.

(** With a square that cannot be taken apart, or whose row is no row of
    the board, the lookup and the turn check run as for any move, and
    [isValidMoveWasm] throws: at its first line, or at
    [temp[tr][tc] = board[fr][fc]]. *)
Definition on_move_payload (socket : Socket) (payload : MovePayload)
    (now1 now2 : Z) (st : Server) : res (Server * list Output) :=
  match payload with
  | NoMovePayload => TypeError
  | MoveOf NoKey _ _ => Ret (st, [])
  | MoveOf (Key gameId) (Square from) (Square to) =>
      on_move socket gameId from to now1 now2 st
  | MoveOf (Key gameId) _ _ =>
      match JsMap.get (games st) gameId with
      | None => Ret (st, [])
      | Some game =>
          psid <- playerSocketId game ;;
          if negb (String.eqb (id socket) psid)
          then Ret (st, [Emit (id socket) (GAME_ERROR "It's not your turn.")])
          else TypeError
      end
  end.

(** ** Events and runs

    [EvJoin] and [EvMove] are the GAME_JOIN and GAME_MOVE events whose
    payload has the shape the handlers expect; [EvJoinPayload] and
    [EvMovePayload] carry any payload of the kinds above. *)

Inductive Event :=
| EvCreate (socket : Socket) (payload : TimeControlField) (uuid : GameId)
| EvFind (socket : Socket) (uuid : GameId) (coin : bool) (now : Z)
| EvFindCancel (socket : Socket)
| EvJoin (socket : Socket) (gameId : GameId) (now : Z)
| EvMove (socket : Socket) (gameId : GameId) (from to : Pos) (now1 now2 : Z)
| EvDisconnect (socket : Socket)
| EvTimer (h : TimerId) (now : Z)
| EvJoinPayload (socket : Socket) (payload : JoinPayload) (now : Z)
| EvMovePayload (socket : Socket) (payload : MovePayload) (now1 now2 : Z).

Definition step (e : Event) (st : Server) : res (Server * list Output) :=
  match e with
  | EvCreate s p u => Ret (on_create s p u st)
  | EvFind s u c n => Ret (on_find s u c n st)
  | EvFindCancel s => Ret (on_find_cancel s st)
  | EvJoin s g n => Ret (on_join s g n st)
  | EvMove s g f t n1 n2 => on_move s g f t n1 n2 st
  | EvDisconnect s => Ret (on_disconnect s st)
  | EvTimer h n => Ret (on_timer h n st)
  | EvJoinPayload s p n => on_join_payload s p n st
  | EvMovePayload s p n1 n2 => on_move_payload s p n1 n2 st
  end.

(** A square that gives [isValidMoveWasm] no row of an eight-row board
    to read or write: [board[row]] is undefined, or the square cannot be
    taken apart at all. *)
Definition off_board (sq : SquareField) : Prop :=
  match sq with
  | NotIterable | NoRow => True
  | Square p => (8 <= fst p)%nat
  end.

(** The events whose payload has the expected shape. *)
Definition shaped (e : Event) : Prop :=
  match e with
  | EvJoinPayload _ _ _ | EvMovePayload _ _ _ _ => False
  | _ => True
  end.

(** A run of the server: the state, everything emitted so far, and
    whether a handler threw (an uncaught exception ends the process). *)
Record Run := { server : Server; outputs : list Output; crashed : bool }.

Definition run_event (r : Run) (e : Event) : Run :=
  if crashed r then r
  else
    match step e (server r) with
    | Ret (st', out) =>
        {| server := st'; outputs := outputs r ++ out; crashed := false |}
    | TypeError =>
        {| server := server r; outputs := outputs r; crashed := true |}
    end.

Definition run_from (st : Server) (evs : list Event) : Run :=
  fold_left run_event evs {| server := st; outputs := []; crashed := false |}.

Definition run (evs : list Event) : Run := run_from initialServer evs.

Definition reachable (st : Server) : Prop :=
  exists evs, crashed (run evs) = false /\ server (run evs) = st.

End Handlers.

(** ** A concrete oracle and concrete players for closed examples

    [pawnRules] accepts exactly the forward pawn pushes onto empty
    squares (one step, or two steps from the pawn's home row over an
    empty square), never reports check and never reports a finished
    game: it agrees with chess on the opening pushes used below. *)

Module Demo.

Definition square (buf : list Z) (r c : nat) : Z := nth (r * 8 + c) buf 32.

Definition pawn_push (buf : list Z) (fr fc tr tc : nat) (isWhite : bool) : bool :=
  Nat.eqb fc tc && (square buf tr tc =? 32) &&
  if isWhite then
    (square buf fr fc =? 80) &&
    (Nat.eqb fr (S tr) ||
     (Nat.eqb fr 6 && Nat.eqb tr 4 && (square buf 5 fc =? 32)))
  else
    (square buf fr fc =? 112) &&
    (Nat.eqb tr (S fr) ||
     (Nat.eqb fr 1 && Nat.eqb tr 3 && (square buf 2 fc =? 32))).

Definition pawnRules : RulesOracle :=
  {| isValidMove_c := pawn_push;
     isKingInCheck := fun _ _ _ => false;
     getGameStatus := fun _ _ _ => None |}.

Definition alice : Socket := {| id := "sockA"; user := Some "alice" |}.
Definition bob : Socket := {| id := "sockB"; user := Some "bob" |}.

Definition e2 : Pos := (6%nat, 4%nat).
Definition e4 : Pos := (4%nat, 4%nat).

End Demo.

(** ** Observations on outputs and event lists *)

(** Is [o] the terminal broadcast of session [gameId]? *)
Definition is_game_over (gameId : GameId) (o : Output) : bool :=
  match o with
  | Broadcast room (GAME_OVER _) => String.eqb room gameId
  | _ => false
  end.

Definition count_game_over (gameId : GameId) (outs : list Output) : nat :=
  List.length (filter (is_game_over gameId) outs).

(** The session keys, [crypto.randomUUID().slice(0, 8)], handed out
    along a list of events.  They are eight characters of a random
    identifier: the same key can come up twice. *)
Definition generated_ids (evs : list Event) : list GameId :=
  flat_map (fun e =>
    match e with
    | EvCreate _ _ uuid => [uuid]
    | EvFind _ uuid _ _ => [uuid]
    | _ => []
    end) evs.

(** The pending timers that hold a [handleTimeout] call for [gameId]. *)
Definition timers_of (gameId : GameId) (st : Server) : list (TimerId * Timer) :=
  filter (fun ht => String.eqb (t_game (snd ht)) gameId) (timers st).

(** ** Readings of the claims, and notions used to state invariants *)

(** The reading of the join operation under which the timer belongs to
    whichever side is to move: after a successful join the joiner's
    closure holds a pending timer for the side to move, set from that
    side's remaining time. *)
Definition join_arms_side_to_move (socket : Socket) (gameId : GameId) (now : Z)
    (st : Server) : Prop :=
  forall game,
    JsMap.get (games st) gameId = Some game ->
    let st' := fst (on_join socket gameId now st) in
    let remaining :=
      match turn game with white => whiteTime game | black => blackTime game end in
    exists h,
      JsMap.get (gameTimeouts st') (id socket, gameId) = Some h
      /\ JsMap.get (timers st') h
         = Some {| t_owner := id socket; t_game := gameId; t_color := turn game;
                   t_due := now + setTimeout_delay (remaining + 1000) |}.

(** The standard starting position, written as the placement field of
    its Forsyth-Edwards record, rank 8 first. *)
Fixpoint fen_rows (s : string) (row : list Cell) : Board :=
  match s with
  | EmptyString => [row]
  | String c s' =>
      if Ascii.eqb c "/" then row :: fen_rows s' []
      else
        let n := nat_of_ascii c in
        if (48 <? n)%nat && (n <? 57)%nat
        then fen_rows s' (row ++ repeat (Str "") (n - 48))
        else fen_rows s' (row ++ [Str (String c EmptyString)])
  end.

Definition standard_start : Board :=
  fen_rows "rnbqkbnr/pppppppp/8/8/8/8/PPPPPPPP/RNBQKBNR" [].

(** The reading of pairing under which the two dequeued entries always
    get complementary sides. *)
Definition paired_sides_complementary (socket : Socket) (uuid : GameId)
    (coin : bool) (now : Z) (st : Server) : Prop :=
  forall s1 s2 rest,
    matchmakingQueue st ++ [socket] = s1 :: s2 :: rest ->
    exists c,
      In (Emit (id s1) (GAME_JOINED uuid c standard_start 600000 600000))
         (snd (on_find socket uuid coin now st))
      /\ In (Emit (id s2) (GAME_JOINED uuid (other c) standard_start 600000 600000))
            (snd (on_find socket uuid coin now st)).


(** The keys of the store before and after a handler, and what it
    broadcast: nothing changed and no session ended; or one stored
    session ended and was evicted; or one session was stored under an
    identifier that the event supplied. *)
Inductive store_effect (new : list GameId) (ks ks' : list GameId)
    (out : list Output) : Prop :=
| eff_quiet :
    ks' = ks ->
    (forall gid, count_game_over gid out = 0%nat) ->
    store_effect new ks ks' out
| eff_final (gameId : GameId) :
    In gameId ks ->
    ks' = filter (fun x => negb (String.eqb x gameId)) ks ->
    (forall gid, count_game_over gid out = if String.eqb gameId gid then 1%nat else 0%nat) ->
    store_effect new ks ks' out
| eff_new (gameId : GameId) :
    In gameId new ->
    (forall x, In x ks' <-> x = gameId \/ In x ks) ->
    (NoDup ks -> NoDup ks') ->
    (forall gid, count_game_over gid out = 0%nat) ->
    store_effect new ks ks' out.


(** ** The authentication middleware

    [jwt.verify] and [User.findById] are external; [None] stands for a
    call that throws or rejects. *)





(** ** The client module [socket.js] and the login and register forms

    The browser's [localStorage], the build's [VITE_SERVER_URL] and the
    module variable [socket] are the state; what the module does to the
    outside is a list of effects.  The three logging listeners that
    [connectSocket] registers are left out. *)

Record ClientSocket := {
  c_url : string;
  c_token : string;       (* auth: { token } *)
  c_connected : bool      (* socket.connected *)
}.

Record Browser := {
  storedToken : option string;      (* localStorage.getItem('token'), null when absent *)
  serverUrl : option string;        (* import.meta.env.VITE_SERVER_URL *)
  current : option ClientSocket     (* the exported variable socket *)
}.

Inductive ClientEffect :=
| Warn (msg : string)                       (* console.warn *)
| Disconnect (s : ClientSocket)             (* socket.disconnect() *)
| Open (url token : string)                 (* io(SERVER_URL, { ..., auth: { token } }) *)
| Navigate (path : string)                  (* navigate(path) *)
| SetError (msg : string).                  (* setError(err.message) *)

(** [a || b] on strings that may be undefined. *)
Definition or_else (a : option string) (b : string) : string :=
  match a with
  | None => b
  | Some EmptyString => b
  | Some s => s
  end.

Definition connectSocket (b : Browser)
    : Browser * option ClientSocket * list ClientEffect :=
  match storedToken b with
  | None => (b, None, [Warn "No token found in localStorage"])
  | Some EmptyString => (b, None, [Warn "No token found in localStorage"])
  | Some token =>
      let closing :=
        match current b with
        | Some s => if c_connected s then [Disconnect s] else []
        | None => []
        end in
      let SERVER_URL := or_else (serverUrl b) "http://localhost:4000" in
      let s := {| c_url := SERVER_URL; c_token := token; c_connected := false |} in
      ({| storedToken := storedToken b; serverUrl := serverUrl b; current := Some s |},
       Some s, closing ++ [Open SERVER_URL token])
  end.

(** What [await login(...)] or [await register(...)] gives: a rejection
    with its message, or a reply whose [token] field may be undefined. *)
Inductive AuthReply :=
| Rejected (message : string)
| Replied (token : option string).

(** [localStorage.setItem('token', token)] stores the string form. *)
Definition setItem_token (b : Browser) (token : option string) : Browser :=
  {| storedToken := Some (match token with Some t => t | None => "undefined" end);
     serverUrl := serverUrl b; current := current b |}.

(** The body of [handleSubmit] after [e.preventDefault()], the same in
    both forms. *)
Definition handleSubmit (reply : AuthReply) (b : Browser) : Browser * list ClientEffect :=
  match reply with
  | Rejected message => (b, [SetError message])
  | Replied token =>
      let b1 := setItem_token b token in
      let '(b2, _, effects) := connectSocket b1 in
      (b2, effects ++ [Navigate "/dashboard"])
  end.

(** ** Notions used to state what the handlers keep *)

(** [board[r][c]] on a row that exists or not. *)
Definition cell (b : Board) (r c : nat) : Cell := js_get Undef (js_get [] b r) c.

(** Every session in the store satisfies [P]. *)
Definition games_all (P : Game -> Prop) (st : Server) : Prop :=
  forall gameId g, JsMap.get (games st) gameId = Some g -> P g.

(** Eight rows, and participants that carry a user. *)
Definition good_game (g : Game) : Prop :=
  List.length (board g) = 8%nat
  /\ p_user (players_white g) <> None
  /\ forall p, players_black g = Some p -> p_user p <> None.

(** At most one socket waits; it is authenticated and has registered a
    GAME_FIND_CANCEL listener. *)
Definition queue_ok (st : Server) : Prop :=
  (List.length (matchmakingQueue st) <= 1)%nat
  /\ forall s, In s (matchmakingQueue st) ->
       user s <> None /\ In (id s) (cancelListeners st).

(** Every pending timer was handed out by the runtime and is the handle
    that its closure holds for its session. *)
Definition timers_ok (st : Server) : Prop :=
  forall h tm,
    JsMap.get (timers st) h = Some tm ->
    (h < nextTimer st)%nat
    /\ JsMap.get (gameTimeouts st) (t_owner tm, t_game tm) = Some h.

(** No pending timer of closure [c] holds a call for session [gameId]. *)
Definition no_pending (c : SocketId) (gameId : GameId) (st : Server) : Prop :=
  forall h tm, JsMap.get (timers st) h = Some tm ->
               (t_owner tm, t_game tm) <> (c, gameId).

(** What an event may change of a session it keeps: nothing of its white
    participant, of a black participant that is there, or of its time
    control. *)
Definition same_seats (g g' : Game) : Prop :=
  players_white g' = players_white g
  /\ (forall p, players_black g = Some p -> players_black g' = Some p)
  /\ timeControl g' = timeControl g.

Definition evolves (gameId : GameId) (g : Game) (st' : Server) : Prop :=
  forall g', JsMap.get (games st') gameId = Some g' -> same_seats g g'.

(** ** Facts about keys *)

Lemma keqb_refl {K : Type} `{KeyEq K} (k : K) : keqb k k = true.
Proof. destruct (keqb_spec k k); congruence. Qed.

Lemma keqb_neq {K : Type} `{KeyEq K} (k k' : K) : k <> k' -> keqb k k' = false.
Proof. intro Hn; destruct (keqb_spec k k'); congruence. Qed.

(** ** Facts about [JsMap] *)

Section JsMapFacts.
Context {K V : Type} `{KeyEq K}.
Implicit Types (m : JsMap.t K V) (k : K) (v : V).

Lemma get_set_same m k v : JsMap.get (JsMap.set m k v) k = Some v.
Proof.
  induction m as [|[k' v'] m IH]; simpl.
  - now rewrite keqb_refl.
  - destruct (keqb k' k) eqn:E; simpl; now rewrite E.
Qed.

Lemma get_set_other m k k' v :
  k <> k' -> JsMap.get (JsMap.set m k v) k' = JsMap.get m k'.
Proof.
  intro Hn; induction m as [|[k0 v0] m IH]; simpl.
  - now rewrite keqb_neq.
  - destruct (keqb_spec k0 k) as [->|Hk]; simpl.
    + now rewrite keqb_neq.
    + now rewrite IH.
Qed.

Lemma get_delete_same m k : JsMap.get (JsMap.delete m k) k = None.
Proof.
  induction m as [|[k' v'] m IH]; simpl; [reflexivity|].
  destruct (keqb k' k) eqn:E; simpl; [assumption|now rewrite E].
Qed.

Lemma get_delete_other m k k' :
  k <> k' -> JsMap.get (JsMap.delete m k) k' = JsMap.get m k'.
Proof.
  intro Hn; induction m as [|[k0 v0] m IH]; simpl; [reflexivity|].
  destruct (keqb_spec k0 k) as [->|Hk]; simpl.
  - rewrite IH. now rewrite keqb_neq.
  - now rewrite IH.
Qed.

Lemma get_delete_some m k k' v :
  JsMap.get (JsMap.delete m k) k' = Some v -> k <> k' /\ JsMap.get m k' = Some v.
Proof.
  intro Hg. destruct (keqb_spec k k') as [->|Hn].
  - rewrite get_delete_same in Hg. discriminate.
  - split; [assumption|]. now rewrite get_delete_other in Hg.
Qed.

Lemma get_modify_same m k (f : V -> V) :
  JsMap.get (JsMap.modify m k f) k = option_map f (JsMap.get m k).
Proof.
  unfold JsMap.modify. destruct (JsMap.get m k) eqn:E; simpl.
  - apply get_set_same.
  - assumption.
Qed.

Lemma get_modify_other m k k' (f : V -> V) :
  k <> k' -> JsMap.get (JsMap.modify m k f) k' = JsMap.get m k'.
Proof.
  intro Hn. unfold JsMap.modify. destruct (JsMap.get m k); [|reflexivity].
  now apply get_set_other.
Qed.

Lemma get_modify_none m k k' (f : V -> V) :
  JsMap.get (JsMap.modify m k f) k' = None <-> JsMap.get m k' = None.
Proof.
  destruct (keqb_spec k k') as [->|Hn].
  - rewrite get_modify_same. destruct (JsMap.get m k'); simpl; split; congruence.
  - now rewrite get_modify_other.
Qed.

Lemma get_in_keys m k v : JsMap.get m k = Some v -> In k (JsMap.keys m).
Proof.
  induction m as [|[k' v'] m IH]; simpl; [discriminate|].
  destruct (keqb_spec k' k) as [->|Hn]; auto.
Qed.

Lemma get_none_keys m k : JsMap.get m k = None -> ~ In k (JsMap.keys m).
Proof.
  induction m as [|[k' v'] m IH]; simpl; [tauto|].
  destruct (keqb_spec k' k) as [->|Hn]; [discriminate|].
  intros Hg [?|?]; [congruence|now apply IH].
Qed.

Lemma keys_set m k v x : In x (JsMap.keys (JsMap.set m k v)) <-> x = k \/ In x (JsMap.keys m).
Proof.
  induction m as [|[k' v'] m IH]; simpl.
  - intuition.
  - destruct (keqb_spec k' k) as [->|Hn]; simpl; [intuition|].
    rewrite IH. intuition.
Qed.

Lemma keys_delete m k x : In x (JsMap.keys (JsMap.delete m k)) <-> x <> k /\ In x (JsMap.keys m).
Proof.
  induction m as [|[k' v'] m IH]; simpl.
  - intuition.
  - destruct (keqb_spec k' k) as [->|Hn]; simpl; rewrite IH; intuition congruence.
Qed.

Lemma NoDup_keys_set m k v : NoDup (JsMap.keys m) -> NoDup (JsMap.keys (JsMap.set m k v)).
Proof.
  induction m as [|[k' v'] m IH]; simpl; intro Hnd.
  - constructor; [tauto|constructor].
  - inversion Hnd as [|? ? Hni Hnd']; subst.
    destruct (keqb_spec k' k) as [->|Hn]; simpl; constructor; auto.
    rewrite keys_set. intros [?|?]; [congruence|contradiction].
Qed.

Lemma NoDup_keys_delete m k : NoDup (JsMap.keys m) -> NoDup (JsMap.keys (JsMap.delete m k)).
Proof.
  induction m as [|[k' v'] m IH]; simpl; intro Hnd; [constructor|].
  inversion Hnd as [|? ? Hni Hnd']; subst.
  destruct (keqb k' k); simpl; auto.
  constructor; auto. rewrite keys_delete. tauto.
Qed.

Lemma NoDup_keys_modify m k (f : V -> V) :
  NoDup (JsMap.keys m) -> NoDup (JsMap.keys (JsMap.modify m k f)).
Proof.
  unfold JsMap.modify. destruct (JsMap.get m k); auto using NoDup_keys_set.
Qed.



Lemma keys_set_present m k v v0 :
  JsMap.get m k = Some v0 -> JsMap.keys (JsMap.set m k v) = JsMap.keys m.
Proof.
  induction m as [|[k' v'] m IH]; simpl; [discriminate|].
  destruct (keqb k' k) eqn:E; simpl; [reflexivity|].
  intro Hg. now rewrite IH.
Qed.

Lemma keys_modify m k (f : V -> V) :
  JsMap.keys (JsMap.modify m k f) = JsMap.keys m.
Proof.
  unfold JsMap.modify. destruct (JsMap.get m k) eqn:E; [|reflexivity].
  eapply keys_set_present; eassumption.
Qed.

Lemma keys_delete_filter m k :
  JsMap.keys (JsMap.delete m k) = filter (fun x => negb (keqb x k)) (JsMap.keys m).
Proof.
  induction m as [|[k' v'] m IH]; simpl; [reflexivity|].
  destruct (keqb k' k); simpl; now rewrite IH.
Qed.

Lemma in_keys_get m k : In k (JsMap.keys m) -> exists v, JsMap.get m k = Some v.
Proof.
  intro Hin. destruct (JsMap.get m k) as [v|] eqn:E; [now exists v|].
  now apply get_none_keys in E.
Qed.
End JsMapFacts.

(** ** The move handler before any mutation *)

Section MoveGuards.
Variable rules : RulesOracle.

(** A successful legality query relocated the piece on a copy of the
    board, so the same three assignments on the board itself succeed. *)
Lemma isValidMoveWasm_relocate b from to t v :
  isValidMoveWasm rules b from to t = Ret v ->
  exists b', relocate b from to = Ret b'.
Proof.
  unfold isValidMoveWasm, bind.
  destruct (writeBoardToPtr b); [|discriminate].
  destruct (relocate b from to) as [b'|]; [|discriminate].
  intros _. now exists b'.
Qed.

(** A move for a session that is not in the store is dropped. *)
Lemma on_move_unknown socket gameId from to n1 n2 st :
  JsMap.get (games st) gameId = None ->
  on_move rules socket gameId from to n1 n2 st = Ret (st, []).
Proof. intro Hg. unfold on_move. now rewrite Hg. Qed.

(** When the side to move has a participant and the sender is someone
    else, the sender alone is told so and the server state is the same. *)
Lemma on_move_not_your_turn socket gameId game psid from to n1 n2 st :
  JsMap.get (games st) gameId = Some game ->
  playerSocketId game = Ret psid ->
  id socket <> psid ->
  on_move rules socket gameId from to n1 n2 st
  = Ret (st, [Emit (id socket) (GAME_ERROR "It's not your turn.")]).
Proof.
  intros Hg Hp Hn. unfold on_move. rewrite Hg, Hp. simpl.
  destruct (String.eqb_spec (id socket) psid); [contradiction|reflexivity].
Qed.

(** With black to move and no black participant the handler throws,
    whoever sends the move. *)
Lemma on_move_absent_black socket gameId game from to n1 n2 st :
  JsMap.get (games st) gameId = Some game ->
  turn game = black ->
  players_black game = None ->
  on_move rules socket gameId from to n1 n2 st = TypeError.
Proof.
  intros Hg Ht Hb. unfold on_move, playerSocketId. now rewrite Hg, Ht, Hb.
Qed.

(** C6. A move that the validator accepts as reachable, but after which
    the simulated board has the mover's own king attacked, is answered
    with "Invalid move." to the mover alone; the whole server state
    (boards, turns, clocks, timers) stays as it was. *)
Theorem self_check_move_rejected socket gameId game from to n1 n2 st buf temp :
  JsMap.get (games st) gameId = Some game ->
  playerSocketId game = Ret (id socket) ->
  writeBoardToPtr (board game) = Ret buf ->
  isValidMove_c rules buf (fst from) (snd from) (fst to) (snd to)
    (Color_eqb (turn game) white) = true ->
  relocate (board game) from to = Ret temp ->
  isKingInCheck rules temp (turn game) (wasmProbe rules) = true ->
  on_move rules socket gameId from to n1 n2 st
  = Ret (st, [Emit (id socket) (GAME_ERROR "Invalid move.")]).
Proof.
  intros Hg Hp Hbuf Hok Hrel Hchk.
  unfold on_move. rewrite Hg, Hp. simpl.
  rewrite String.eqb_refl. simpl.
  unfold isValidMoveWasm. rewrite Hbuf. simpl. rewrite Hrel. simpl.
  now rewrite Hok, Hchk.
Qed.

End MoveGuards.

(** The rejected move e2-e3 under an oracle that sees every king attacked. *)
Lemma self_check_move_rejected_witness :
  let rules := {| isValidMove_c := Demo.pawn_push;
                  isKingInCheck := fun _ _ _ => true;
                  getGameStatus := fun _ _ _ => None |} in
  let st := server (run rules [EvCreate Demo.alice Falsy "g1"; EvJoin Demo.bob "g1" 5000]) in
  on_move rules Demo.alice "g1" (6, 4)%nat (5, 4)%nat 6000 6000 st
  = Ret (st, [Emit "sockA" (GAME_ERROR "Invalid move.")]).
Proof.
  intros rules st.
  assert (Hg : exists game, JsMap.get (games st) "g1" = Some game
                 /\ playerSocketId game = Ret (id Demo.alice)
                 /\ board game = initialBoard /\ turn game = white).
  { eexists. repeat split; vm_compute; reflexivity. }
  destruct Hg as (game & Hg & Hp & Hb & Ht).
  destruct (writeBoardToPtr initialBoard) as [buf|] eqn:Hbuf; [|discriminate].
  destruct (relocate initialBoard (6, 4)%nat (5, 4)%nat) as [temp|] eqn:Hrel; [|discriminate].
  apply (@self_check_move_rejected rules Demo.alice "g1" game (6, 4)%nat (5, 4)%nat
           6000 6000 st buf temp Hg Hp).
  - now rewrite Hb.
  - rewrite Ht. vm_compute in Hbuf. inversion Hbuf; subst buf. vm_compute. reflexivity.
  - now rewrite Hb.
  - reflexivity.
Defined.

(** ** The timer functions *)

Section TimerFacts.
Variable rules : RulesOracle.

Lemma clearGameTimeout_games c gameId st :
  games (clearGameTimeout c gameId st) = games st.
Proof.
  unfold clearGameTimeout. now destruct (JsMap.get (gameTimeouts st) (c, gameId)).
Qed.

Lemma clearGameTimeout_queue c gameId st :
  matchmakingQueue (clearGameTimeout c gameId st) = matchmakingQueue st.
Proof.
  unfold clearGameTimeout. now destruct (JsMap.get (gameTimeouts st) (c, gameId)).
Qed.

Lemma clearGameTimeout_rooms c gameId st :
  rooms (clearGameTimeout c gameId st) = rooms st.
Proof.
  unfold clearGameTimeout. now destruct (JsMap.get (gameTimeouts st) (c, gameId)).
Qed.

Lemma clearGameTimeout_nextTimer c gameId st :
  nextTimer (clearGameTimeout c gameId st) = nextTimer st.
Proof.
  unfold clearGameTimeout. now destruct (JsMap.get (gameTimeouts st) (c, gameId)).
Qed.

(** [handleTimeout] for a session that is not in the store does
    nothing at all. *)
Lemma handleTimeout_evicted c gameId color st :
  JsMap.get (games st) gameId = None ->
  handleTimeout c gameId color st = (st, []).
Proof. intro Hg. unfold handleTimeout. now rewrite Hg. Qed.

Lemma handleTimeout_present c gameId color st game :
  JsMap.get (games st) gameId = Some game ->
  let status := {| winner := color_name (other color); reason := "Timeout" |} in
  snd (handleTimeout c gameId color st)
    = Broadcast gameId (GAME_OVER status) :: saveGame gameId game status
  /\ games (fst (handleTimeout c gameId color st)) = JsMap.delete (games st) gameId
  /\ matchmakingQueue (fst (handleTimeout c gameId color st)) = matchmakingQueue st
  /\ rooms (fst (handleTimeout c gameId color st)) = rooms st.
Proof.
  intro Hg. unfold handleTimeout. rewrite Hg. destruct color; simpl; auto.
Qed.

(** Delays up to [TIMEOUT_MAX] are kept; a longer delay becomes 1 ms. *)
Lemma setTimeout_delay_kept after :
  1 <= after <= TIMEOUT_MAX -> setTimeout_delay after = after.
Proof.
  intros [H1 H2]. unfold setTimeout_delay.
  destruct (Z.leb_spec 1 after); [|lia].
  destruct (Z.leb_spec after TIMEOUT_MAX); [reflexivity|lia].
Qed.

Lemma setTimeout_delay_overflow after :
  TIMEOUT_MAX < after -> setTimeout_delay after = 1.
Proof.
  intro H. unfold setTimeout_delay.
  destruct (Z.leb_spec after TIMEOUT_MAX); [lia|].
  now rewrite andb_false_r.
Qed.

(** A positive duration arms exactly one new timer in the closure of
    [c] and leaves the store alone. *)
Lemma setGameTimeout_positive c gameId d color now st :
  0 < d ->
  let r := setGameTimeout c gameId d color now st in
  snd r = []
  /\ games (fst r) = games st
  /\ matchmakingQueue (fst r) = matchmakingQueue st
  /\ rooms (fst r) = rooms st
  /\ JsMap.get (gameTimeouts (fst r)) (c, gameId) = Some (nextTimer st)
  /\ JsMap.get (timers (fst r)) (nextTimer st)
     = Some {| t_owner := c; t_game := gameId; t_color := color;
               t_due := now + setTimeout_delay (d + 1000) |}.
Proof.
  intros Hd r. subst r. unfold setGameTimeout.
  destruct (Z.leb_spec d 0) as [Hle|_]; [lia|]. simpl.
  rewrite clearGameTimeout_games, clearGameTimeout_queue,
    clearGameTimeout_rooms, clearGameTimeout_nextTimer.
  repeat split; try reflexivity; apply get_set_same.
Qed.

(** A duration that is already used up runs the timeout handler at
    once. *)
Lemma setGameTimeout_expired c gameId d color now st :
  d <= 0 ->
  setGameTimeout c gameId d color now st
  = handleTimeout c gameId color (clearGameTimeout c gameId st).
Proof.
  intro Hd. unfold setGameTimeout.
  destruct (Z.leb_spec d 0) as [_|Hlt]; [reflexivity|lia].
Qed.

Lemma saveGame_no_broadcast gameId game status gid :
  count_game_over gid (saveGame gameId game status) = 0%nat.
Proof.
  unfold saveGame.
  destruct (p_user (players_white game)); [|reflexivity].
  destruct (players_black game) as [[? [?|]]|]; reflexivity.
Qed.

End TimerFacts.

(** ** GAME_JOIN *)

(** C3, as stated, fails: white created the session and already pushed a
    pawn, so black is to move when bob joins, yet the timer that the join
    arms is white's. *)
Lemma join_arms_white_when_black_to_move :
  let st := server (run Demo.pawnRules
                      [EvCreate Demo.alice Falsy "g1";
                       EvMove Demo.alice "g1" Demo.e2 Demo.e4 6000 6000]) in
  crashed (run Demo.pawnRules
             [EvCreate Demo.alice Falsy "g1";
              EvMove Demo.alice "g1" Demo.e2 Demo.e4 6000 6000]) = false
  /\ (exists game, JsMap.get (games st) "g1" = Some game
        /\ turn game = black /\ players_black game = None
        /\ p_id (players_white game) <> id Demo.bob)
  /\ ~ join_arms_side_to_move Demo.bob "g1" 9000 st.
Proof.
  intro st. split; [reflexivity|]. split.
  - eexists. split; [vm_compute; reflexivity|]. repeat split. discriminate.
  - intro Hclaim.
    destruct (Hclaim _ eq_refl) as (h & Hh & Ht).
    vm_compute in Hh. inversion Hh; subst h.
    vm_compute in Ht. discriminate.
Qed.

Section Join.

(** C3 (amended). A join that passes every guard fills black, tells the
    joiner, broadcasts the session state to the session's room (which
    the joiner has entered), records the join instant and then sets the
    timer for white from white's remaining time: a pending timer when
    that time is positive, the timeout handler at once when it is not.
    The pending timer is due white's remaining time plus 1000 ms after
    the join when that delay is at most 2147483647 ms, and 1 ms after
    the join when it is longer.  The timer is the one of the side to
    move exactly when white is to move. *)
Theorem on_join_arms_white socket u gameId game now st :
  user socket = Some u ->
  JsMap.get (games st) gameId = Some game ->
  players_black game = None ->
  p_id (players_white game) <> id socket ->
  let r := on_join socket gameId now st in
  let joined :=
    set_lastMoveTime
      (set_black game (Some {| p_id := id socket; p_user := Some u |})) (Some now) in
  let lost := {| winner := "black"; reason := "Timeout" |} in
  exists out2,
    snd r = [Emit (id socket)
               (GAME_JOINED gameId black (board game) (whiteTime game) (blackTime game));
             Broadcast gameId
               (GAME_STATE (board game) (turn game) (Some 2%nat) (check game)
                  (whiteTime game) (blackTime game) (lastMoveTime game))] ++ out2
    /\ In (id socket, gameId) (rooms (fst r))
    /\ (0 < whiteTime game ->
          out2 = []
          /\ JsMap.get (games (fst r)) gameId = Some joined
          /\ exists h,
               JsMap.get (gameTimeouts (fst r)) (id socket, gameId) = Some h
               /\ JsMap.get (timers (fst r)) h
                  = Some {| t_owner := id socket; t_game := gameId; t_color := white;
                            t_due := now + setTimeout_delay (whiteTime game + 1000) |}
               /\ (whiteTime game + 1000 <= TIMEOUT_MAX ->
                   setTimeout_delay (whiteTime game + 1000) = whiteTime game + 1000)
               /\ (TIMEOUT_MAX < whiteTime game + 1000 ->
                   setTimeout_delay (whiteTime game + 1000) = 1))
    /\ (whiteTime game <= 0 ->
          out2 = Broadcast gameId (GAME_OVER lost) :: saveGame gameId joined lost
          /\ JsMap.get (games (fst r)) gameId = None).
Proof.
  intros Hu Hg Hb Hw r joined lost. subst r.
  unfold on_join. rewrite Hu, Hg, Hb.
  destruct (String.eqb_spec (p_id (players_white game)) (id socket)) as [|_];
    [contradiction|].
  set (game1 := set_black game _).
  set (st3 := store (with_rooms _ _) gameId _).
  assert (Hg3 : JsMap.get (games st3) gameId = Some joined).
  { subst st3. unfold store. simpl. rewrite !get_modify_same, Hg. reflexivity. }
  assert (Hr3 : In (id socket, gameId) (rooms st3)).
  { subst st3. unfold store. simpl. auto. }
  destruct (setGameTimeout (id socket) gameId (whiteTime (set_lastMoveTime game1 (Some now)))
              white now st3) as [st4 out2] eqn:Hset.
  exists out2. simpl. split; [reflexivity|].
  change (whiteTime (set_lastMoveTime game1 (Some now))) with (whiteTime game) in Hset.
  destruct (Z.lt_ge_cases 0 (whiteTime game)) as [Hpos|Hneg].
  - destruct (setGameTimeout_positive (id socket) gameId white now st3 Hpos)
      as (Ho & Hgm & _ & Hrm & Hgt & Htm).
    rewrite Hset in Ho, Hgm, Hrm, Hgt, Htm. simpl in Ho, Hgm, Hrm, Hgt, Htm.
    split; [now rewrite Hrm|]. split.
    + intros _. split; [assumption|]. split; [now rewrite Hgm|].
      exists (nextTimer st3). split; [assumption|]. split; [assumption|]. split.
      * intro Hk. apply setTimeout_delay_kept. lia.
      * apply setTimeout_delay_overflow.
    + intro Hle. lia.
  - rewrite setGameTimeout_expired in Hset by assumption.
    assert (Hgc : JsMap.get (games (clearGameTimeout (id socket) gameId st3)) gameId
                  = Some joined) by now rewrite clearGameTimeout_games.
    destruct (handleTimeout_present (id socket) gameId white _ Hgc)
      as (Ho & Hgm & _ & Hrm).
    rewrite Hset in Ho, Hgm, Hrm. simpl in Ho, Hgm, Hrm.
    split; [now rewrite Hrm, clearGameTimeout_rooms|]. split.
    + intro Hlt. lia.
    + intros _. split; [exact Ho|]. rewrite Hgm. apply get_delete_same.
Qed.

End Join.

(** Bob joins alice's fresh ten minute session at instant 5000. *)
Lemma on_join_arms_white_witness :
  let st := server (run Demo.pawnRules [EvCreate Demo.alice Falsy "g1"]) in
  let game := newGame {| p_id := "sockA"; p_user := Some "alice" |} None 600000 in
  user Demo.bob = Some "bob"
  /\ JsMap.get (games st) "g1" = Some game
  /\ players_black game = None
  /\ p_id (players_white game) <> id Demo.bob
  /\ exists h,
       JsMap.get (gameTimeouts (fst (on_join Demo.bob "g1" 5000 st))) ("sockB", "g1") = Some h
       /\ JsMap.get (timers (fst (on_join Demo.bob "g1" 5000 st))) h
          = Some {| t_owner := "sockB"; t_game := "g1"; t_color := white;
                    t_due := 606000 |}.
Proof.
  intros st game.
  assert (Hu : user Demo.bob = Some "bob") by reflexivity.
  assert (Hg : JsMap.get (games st) "g1" = Some game) by reflexivity.
  assert (Hb : players_black game = None) by reflexivity.
  assert (Hw : p_id (players_white game) <> id Demo.bob) by discriminate.
  repeat (split; [assumption|]).
  destruct (@on_join_arms_white Demo.bob "bob" "g1" game 5000 st Hu Hg Hb Hw)
    as (out2 & _ & _ & Hpos & _).
  destruct (Hpos ltac:(reflexivity)) as (_ & _ & h & Hh & Ht & _).
  exists h. split; assumption.
Defined.

(** A time control of 35792 minutes is more than [setTimeout] accepts:
    the timer that bob's join arms is due one millisecond later. *)
Lemma join_timer_beyond_TIMEOUT_MAX :
  let st := server (run Demo.pawnRules [EvCreate Demo.alice (Minutes 35792) "g1"]) in
  JsMap.get (timers (fst (on_join Demo.bob "g1" 5000 st))) 0%nat
  = Some {| t_owner := "sockB"; t_game := "g1"; t_color := white; t_due := 5001 |}.
Proof. reflexivity. Qed.

(** ** An accepted move *)

Section AcceptedMove.
Variable rules : RulesOracle.

(** Charging a clock touches nothing but that clock. *)
Lemma charge_turn g n : turn (charge g n) = turn g.
Proof.
  unfold charge. destruct (truthy_time (lastMoveTime g)); [|reflexivity].
  destruct (turn g) eqn:E; simpl; congruence.
Qed.

Lemma charge_board g n : board (charge g n) = board g.
Proof.
  unfold charge. destruct (truthy_time (lastMoveTime g)); [|reflexivity].
  destruct (turn g); reflexivity.
Qed.

Lemma charge_time g n last :
  truthy_time (lastMoveTime g) = Some last ->
  time_of (turn g) (charge g n) = time_of (turn g) g - (n - last)
  /\ time_of (other (turn g)) (charge g n) = time_of (other (turn g)) g.
Proof.
  intro Hl. unfold charge. rewrite Hl. now destruct (turn g).
Qed.

(** The path of GAME_MOVE past the timeout check: the clock of the
    mover is charged, the opponent's timer is armed in the mover's
    closure, the piece is relocated, the turn flips, the state is
    broadcast, and a terminal status ends the session. *)
Lemma on_move_accepted socket gameId game from to n1 n2 st b' :
  JsMap.get (games st) gameId = Some game ->
  playerSocketId game = Ret (id socket) ->
  isValidMoveWasm rules (board game) from to (turn game) = Ret true ->
  0 < whiteTime (charge game n1) ->
  0 < blackTime (charge game n1) ->
  relocate (board game) from to = Ret b' ->
  let game1 := charge game n1 in
  let newTurn := other (turn game) in
  let chk := if isKingInCheck rules b' newTurn (isValidMoveWasm rules)
             then Some newTurn else None in
  let game3 := set_position (set_lastMoveTime game1 (Some n2)) b' newTurn chk in
  let final := getGameStatus rules b' newTurn (isValidMoveWasm rules) in
  exists st',
    on_move rules socket gameId from to n1 n2 st
    = Ret (st',
           Broadcast gameId
             (GAME_STATE b' newTurn None chk (whiteTime game1) (blackTime game1) (Some n2))
           :: match final with
              | Some status =>
                  Broadcast gameId (GAME_OVER status) :: saveGame gameId game3 status
              | None => []
              end)
    /\ JsMap.get (games st') gameId
       = match final with Some _ => None | None => Some game3 end
    /\ JsMap.get (gameTimeouts st') (id socket, gameId) = Some (nextTimer st)
    /\ JsMap.get (timers st') (nextTimer st)
       = Some {| t_owner := id socket; t_game := gameId; t_color := newTurn;
                 t_due := n2 + setTimeout_delay (time_of newTurn game1 + 1000) |}
    /\ JsMap.keys (games st')
       = match final with
         | Some _ => filter (fun x => negb (String.eqb x gameId)) (JsMap.keys (games st))
         | None => JsMap.keys (games st)
         end
    /\ matchmakingQueue st' = matchmakingQueue st.
Proof.
  intros Hg Hp Hv Hw Hb Hrel game1 newTurn chk game3 final.
  unfold on_move. rewrite Hg, Hp. simpl. rewrite String.eqb_refl. simpl.
  rewrite Hv. simpl. fold game1. fold game1 in Hw, Hb.
  destruct (Z.leb_spec (whiteTime game1) 0) as [?|_]; [lia|].
  destruct (Z.leb_spec (blackTime game1) 0) as [?|_]; [lia|]. simpl.
  set (game2 := set_lastMoveTime game1 (Some n2)).
  set (st1 := store (store st gameId game1) gameId game2).
  assert (Hturn : turn game1 = turn game) by apply charge_turn.
  assert (Hpos : 0 < time_of newTurn game1) by (destruct newTurn; assumption).
  assert (Hg1 : JsMap.get (games st1) gameId = Some game2).
  { subst st1. unfold store. simpl. rewrite !get_modify_same, Hg. reflexivity. }
  rewrite Hturn.
  change (match match turn game with white => black | black => white end with
          | white => whiteTime game1 | black => blackTime game1 end)
    with (time_of newTurn game1).
  change (match turn game with white => black | black => white end) with newTurn.
  destruct (setGameTimeout_positive (id socket) gameId newTurn n2 st1 Hpos)
    as (Ho & Hgm & Hqm & _ & Hgt & Htm).
  destruct (setGameTimeout (id socket) gameId (time_of newTurn game1) newTurn n2 st1)
    as [st2 out1]. cbn [fst snd] in Ho, Hgm, Hqm, Hgt, Htm. subst out1.
  rewrite Hrel. simpl. fold chk. fold game3. fold final.
  assert (Hg3 : JsMap.get (games (store st2 gameId game3)) gameId = Some game3).
  { unfold store. simpl. rewrite get_modify_same, Hgm, Hg1. reflexivity. }
  assert (Hk3 : JsMap.keys (games (store st2 gameId game3)) = JsMap.keys (games st)).
  { unfold store. simpl. rewrite keys_modify, Hgm. subst st1. unfold store. simpl.
    now rewrite !keys_modify. }
  assert (Hq3 : matchmakingQueue (store st2 gameId game3) = matchmakingQueue st).
  { unfold store. simpl. now rewrite Hqm. }
  destruct final as [status|].
  - assert (Hkd : JsMap.keys (JsMap.delete (games (store st2 gameId game3)) gameId)
                  = filter (fun x => negb (String.eqb x gameId)) (JsMap.keys (games st))).
    { rewrite keys_delete_filter, Hk3. reflexivity. }
    eexists. split; [reflexivity|].
    split; [apply get_delete_same|].
    repeat (split; [assumption|]). exact Hq3.
  - eexists. split; [reflexivity|].
    split; [exact Hg3|]. repeat (split; [assumption|]). exact Hq3.
Qed.

End AcceptedMove.

(** ** Runs *)

Section RunFacts.
Variable rules : RulesOracle.

Lemma run_event_ok r e st' out :
  crashed r = false ->
  step rules e (server r) = Ret (st', out) ->
  run_event rules r e
  = {| server := st'; outputs := outputs r ++ out; crashed := false |}.
Proof. intros Hc Hs. unfold run_event. now rewrite Hc, Hs. Qed.

Lemma run_event_throw r e :
  crashed r = false ->
  step rules e (server r) = TypeError ->
  run_event rules r e
  = {| server := server r; outputs := outputs r; crashed := true |}.
Proof. intros Hc Hs. unfold run_event. now rewrite Hc, Hs. Qed.

Lemma run_event_crashed r e : crashed r = true -> run_event rules r e = r.
Proof. intro Hc. unfold run_event. now rewrite Hc. Qed.

Lemma run_snoc evs e : run rules (evs ++ [e]) = run_event rules (run rules evs) e.
Proof. unfold run, run_from. now rewrite fold_left_app. Qed.

Lemma reachable_initial : reachable rules initialServer.
Proof. exists []. split; reflexivity. Qed.

Lemma reachable_step st e st' out :
  reachable rules st -> step rules e st = Ret (st', out) -> reachable rules st'.
Proof.
  intros (evs & Hc & Hs) Hstep. exists (evs ++ [e]).
  rewrite run_snoc. subst st.
  rewrite (@run_event_ok _ _ _ _ Hc Hstep). split; reflexivity.
Qed.

End RunFacts.

(** ** A session with black absent *)

Section AbsentBlack.
Variable rules : RulesOracle.

(** C10. White creates a session and plays a legal first move before
    anyone joined: the run does not crash, the session is still stored
    with black to move and no black participant, and from there every
    further GAME_MOVE for that session throws at [players.black.id]. *)
Theorem move_lookup_throws_after_solo_move socket u payload uuid from to n1 n2 :
  user socket = Some u ->
  0 < timeMinutes payload ->
  isValidMoveWasm rules initialBoard from to white = Ret true ->
  (forall b', relocate initialBoard from to = Ret b' ->
              getGameStatus rules b' black (isValidMoveWasm rules) = None) ->
  let r := run rules [EvCreate socket payload uuid;
                      EvMove socket uuid from to n1 n2] in
  crashed r = false
  /\ (exists g, JsMap.get (games (server r)) uuid = Some g
        /\ turn g = black /\ players_black g = None)
  /\ forall s f t m1 m2, step rules (EvMove s uuid f t m1 m2) (server r) = TypeError.
Proof.
  intros Hu Hpos Hv Hfin r.
  destruct (@isValidMoveWasm_relocate rules _ _ _ _ _ Hv) as [b' Hrel].
  set (w := {| p_id := id socket; p_user := Some u |}).
  set (timeMs := timeMinutes payload * 60 * 1000).
  set (game := newGame w None timeMs).
  set (st := fst (on_create socket payload uuid initialServer)).
  assert (Hst : on_create socket payload uuid initialServer
                = (st, [Emit (id socket) (GAME_CREATED uuid timeMs timeMs)])).
  { subst st. unfold on_create. now rewrite Hu. }
  assert (Hg : JsMap.get (games st) uuid = Some game).
  { subst st. unfold on_create. rewrite Hu. simpl. now rewrite String.eqb_refl. }
  assert (Hms : 0 < timeMs) by (subst timeMs; lia).
  destruct (@on_move_accepted rules socket uuid game from to n1 n2 st b' Hg
              eq_refl Hv Hms Hms Hrel) as (st' & Hmove & Hg' & _).
  cbv zeta in Hmove, Hg'.
  change (other (turn game)) with black in Hmove, Hg'.
  rewrite (Hfin b' Hrel) in Hmove, Hg'.
  assert (Hr : server r = st' /\ crashed r = false).
  { subst r. unfold run, run_from. cbn [fold_left].
    set (r0 := {| server := initialServer; outputs := []; crashed := false |}).
    assert (H1 : run_event rules r0 (EvCreate socket payload uuid)
                 = {| server := st;
                      outputs := [] ++ [Emit (id socket) (GAME_CREATED uuid timeMs timeMs)];
                      crashed := false |}).
    { apply run_event_ok; [reflexivity|]. cbn [step server r0]. now rewrite Hst. }
    rewrite H1.
    erewrite run_event_ok; [split; reflexivity|reflexivity|exact Hmove]. }
  destruct Hr as [Hs Hc]. rewrite Hs. split; [assumption|]. split.
  - eexists. split; [exact Hg'|]. split; reflexivity.
  - intros s f t m1 m2. eapply on_move_absent_black; [exact Hg'| |]; reflexivity.
Qed.

End AbsentBlack.

(** Alice alone opens with e2-e4 under the pawn oracle. *)
Lemma move_lookup_throws_after_solo_move_witness :
  user Demo.alice = Some "alice"
  /\ 0 < timeMinutes Falsy
  /\ isValidMoveWasm Demo.pawnRules initialBoard Demo.e2 Demo.e4 white = Ret true
  /\ step Demo.pawnRules (EvMove Demo.bob "g1" (1, 4)%nat (3, 4)%nat 7000 7000)
       (server (run Demo.pawnRules
                  [EvCreate Demo.alice Falsy "g1";
                   EvMove Demo.alice "g1" Demo.e2 Demo.e4 6000 6000]))
     = TypeError.
Proof.
  assert (Hu : user Demo.alice = Some "alice") by reflexivity.
  assert (Hp : 0 < timeMinutes Falsy) by reflexivity.
  assert (Hv : isValidMoveWasm Demo.pawnRules initialBoard Demo.e2 Demo.e4 white = Ret true)
    by reflexivity.
  repeat (split; [assumption|]).
  apply (@move_lookup_throws_after_solo_move Demo.pawnRules Demo.alice "alice" Falsy "g1"
           Demo.e2 Demo.e4 6000 6000 Hu Hp Hv (fun _ _ => eq_refl)).
Defined.

(** ** Matchmaking *)

(** C7, as stated, fails when one connection is queued twice: both
    dequeued entries are that connection, and both join confirmations
    say white. *)
Lemma paired_with_itself_both_white :
  let st := server (run Demo.pawnRules [EvFind Demo.alice "g0" true 5000]) in
  matchmakingQueue st = [Demo.alice]
  /\ ~ paired_sides_complementary Demo.alice "g1" true 6000 st.
Proof.
  intro st. split; [reflexivity|].
  intro Hclaim.
  destruct (Hclaim Demo.alice Demo.alice [] eq_refl) as (c & H1 & H2).
  vm_compute in H1, H2.
  destruct c; intuition discriminate.
Qed.

Section Matchmaking.

Lemma initialBoard_standard : initialBoard = standard_start.
Proof. reflexivity. Qed.

Lemma pair_single socket uuid coin now st s :
  matchmakingQueue st = [s] -> pair socket uuid coin now st = (st, []).
Proof. intro Hq. unfold pair. now rewrite Hq. Qed.

Lemma pair_two_oldest socket uuid coin now st s1 s2 rest :
  matchmakingQueue st = s1 :: s2 :: rest ->
  let r := pair socket uuid coin now st in
  let pw := if coin then s1 else s2 in
  let pb := if coin then s2 else s1 in
  let side (s : Socket) := if String.eqb (id pw) (id s) then white else black in
  matchmakingQueue (fst r) = rest
  /\ JsMap.get (games (fst r)) uuid
     = Some (set_lastMoveTime
               (newGame {| p_id := id pw; p_user := user pw |}
                  (Some {| p_id := id pb; p_user := user pb |}) 600000)
               (Some now))
  /\ snd r
     = [Emit (id s1) (GAME_JOINED uuid (side s1) standard_start 600000 600000);
        Emit (id s2) (GAME_JOINED uuid (side s2) standard_start 600000 600000);
        Broadcast uuid
          (GAME_STATE standard_start white (Some 2%nat) None 600000 600000 None)].
Proof.
  intros Hq r pw pb side. subst r. unfold pair. rewrite Hq.
  set (g := newGame _ _ _).
  set (st4 := with_games _ _).
  assert (Hg : g = newGame {| p_id := id pw; p_user := user pw |}
                     (Some {| p_id := id pb; p_user := user pb |}) 600000).
  { subst g pw pb. destruct coin; reflexivity. }
  assert (Hg4 : JsMap.get (games st4) uuid = Some (set_lastMoveTime g (Some now))).
  { subst st4. simpl. rewrite get_modify_same, get_set_same. reflexivity. }
  assert (Hpos : 0 < whiteTime (set_lastMoveTime g (Some now))) by (rewrite Hg; reflexivity).
  destruct (setGameTimeout_positive (id socket) uuid white now st4 Hpos)
    as (Ho & Hgm & Hqm & _).
  destruct (setGameTimeout (id socket) uuid (whiteTime (set_lastMoveTime g (Some now)))
              white now st4) as [st5 out2].
  cbn [fst snd] in *. subst out2.
  split; [rewrite Hqm; reflexivity|].
  split; [rewrite Hgm, Hg4, Hg; reflexivity|].
  rewrite Hg. subst side pw pb. destruct coin; reflexivity.
Qed.

(** C7 (amended). An authenticated GAME_FIND appends the socket to the
    queue.  While the queue then holds fewer than two entries nothing
    else happens.  Otherwise the two oldest entries leave the queue and
    become the two participants of one new session on the standard
    starting position, both are sent a join confirmation for that
    session, and the confirmations name complementary sides whenever
    the two entries are different connections. *)
Theorem on_find_pairs_two_oldest socket u uuid coin now st :
  user socket = Some u ->
  let r := on_find socket uuid coin now st in
  let q := matchmakingQueue st ++ [socket] in
  matchmakingQueue (enqueue socket st) = q
  /\ (forall s, q = [s] ->
        matchmakingQueue (fst r) = [s] /\ games (fst r) = games st
        /\ snd r = [Emit (id socket) GAME_FINDING])
  /\ (forall s1 s2 rest, q = s1 :: s2 :: rest ->
        let pw := if coin then s1 else s2 in
        let pb := if coin then s2 else s1 in
        let side (s : Socket) := if String.eqb (id pw) (id s) then white else black in
        matchmakingQueue (fst r) = rest
        /\ JsMap.get (games (fst r)) uuid
           = Some (set_lastMoveTime
                     (newGame {| p_id := id pw; p_user := user pw |}
                        (Some {| p_id := id pb; p_user := user pb |}) 600000)
                     (Some now))
        /\ snd r
           = [Emit (id socket) GAME_FINDING;
              Emit (id s1) (GAME_JOINED uuid (side s1) standard_start 600000 600000);
              Emit (id s2) (GAME_JOINED uuid (side s2) standard_start 600000 600000);
              Broadcast uuid
                (GAME_STATE standard_start white (Some 2%nat) None 600000 600000 None)]
        /\ (id s1 <> id s2 -> side s2 = other (side s1))).
Proof.
  intros Hu r q. subst r. unfold on_find. rewrite Hu.
  set (st1 := enqueue socket (with_cancelListeners st _)).
  assert (Hq1 : matchmakingQueue st1 = q) by reflexivity.
  split; [reflexivity|]. split.
  - intros s Hq. rewrite Hq in Hq1.
    rewrite (@pair_single socket uuid coin now st1 s Hq1).
    repeat split; assumption || reflexivity.
  - intros s1 s2 rest Hq. rewrite Hq in Hq1.
    destruct (@pair_two_oldest socket uuid coin now st1 s1 s2 rest Hq1)
      as (Hqr & Hgr & Hor).
    destruct (pair socket uuid coin now st1) as [st2 out].
    cbn [fst snd] in *. subst out.
    repeat (split; [assumption || reflexivity|]).
    intro Hne. destruct coin.
    + rewrite String.eqb_refl.
      destruct (String.eqb_spec (id s1) (id s2)); [contradiction|reflexivity].
    + rewrite String.eqb_refl.
      destruct (String.eqb_spec (id s2) (id s1)); [congruence|reflexivity].
Qed.

(** C9. Nothing keeps a connection from being queued twice: from an
    empty queue the first GAME_FIND leaves the queue holding the
    socket, the push of the second makes it hold the socket twice, the
    pairing runs, and both participants of the new session carry that
    one connection identifier. *)
Theorem same_connection_paired_with_itself socket u uuid1 uuid2 coin1 coin2 n1 n2 st :
  user socket = Some u ->
  matchmakingQueue st = [] ->
  let st1 := fst (on_find socket uuid1 coin1 n1 st) in
  let st2 := fst (on_find socket uuid2 coin2 n2 st1) in
  matchmakingQueue st1 = [socket]
  /\ matchmakingQueue
       (enqueue socket (with_cancelListeners st1 (id socket :: cancelListeners st1)))
     = [socket; socket]
  /\ matchmakingQueue st2 = []
  /\ exists g pb,
       JsMap.get (games st2) uuid2 = Some g
       /\ players_black g = Some pb
       /\ p_id (players_white g) = id socket
       /\ p_id pb = id socket.
Proof.
  intros Hu Hq st1 st2.
  assert (H1 : on_find socket uuid1 coin1 n1 st
               = (enqueue socket (with_cancelListeners st (id socket :: cancelListeners st)),
                  [Emit (id socket) GAME_FINDING])).
  { unfold on_find. rewrite Hu.
    rewrite (@pair_single socket uuid1 coin1 n1 _ socket); [reflexivity|].
    unfold enqueue. simpl. now rewrite Hq. }
  assert (Hq1 : matchmakingQueue st1 = [socket]).
  { subst st1. rewrite H1. unfold enqueue. simpl. now rewrite Hq. }
  set (st1' := enqueue socket (with_cancelListeners st1 (id socket :: cancelListeners st1))).
  assert (Hq1' : matchmakingQueue st1' = [socket; socket]).
  { subst st1'. unfold enqueue. simpl. now rewrite Hq1. }
  destruct (@pair_two_oldest socket uuid2 coin2 n2 st1' socket socket [] Hq1')
    as (Hq2 & Hg2 & _).
  assert (H2 : st2 = fst (pair socket uuid2 coin2 n2 st1')).
  { subst st2. unfold on_find. rewrite Hu. fold st1'.
    now destruct (pair socket uuid2 coin2 n2 st1'). }
  rewrite <- H2 in Hq2, Hg2.
  split; [assumption|]. split; [assumption|]. split; [assumption|].
  eexists. eexists. split; [exact Hg2|].
  destruct coin2; repeat split; reflexivity.
Qed.

End Matchmaking.

(** Alice and then bob look for a match: alice is the older entry. *)
Lemma on_find_pairs_two_oldest_witness :
  let st := server (run Demo.pawnRules [EvFind Demo.alice "g0" true 5000]) in
  user Demo.bob = Some "bob"
  /\ matchmakingQueue (fst (on_find Demo.bob "g1" false 6000 st)) = []
  /\ snd (on_find Demo.bob "g1" false 6000 st)
     = [Emit "sockB" GAME_FINDING;
        Emit "sockA" (GAME_JOINED "g1" black standard_start 600000 600000);
        Emit "sockB" (GAME_JOINED "g1" white standard_start 600000 600000);
        Broadcast "g1"
          (GAME_STATE standard_start white (Some 2%nat) None 600000 600000 None)].
Proof.
  intro st.
  assert (Hu : user Demo.bob = Some "bob") by reflexivity.
  split; [assumption|].
  destruct (@on_find_pairs_two_oldest Demo.bob "bob" "g1" false 6000 st Hu)
    as (_ & _ & H2).
  destruct (H2 Demo.alice Demo.bob [] eq_refl) as (Hq & _ & Ho & _).
  split; [exact Hq|exact Ho].
Defined.

(** Alice sends GAME_FIND twice to a fresh server. *)
Lemma same_connection_paired_with_itself_witness :
  user Demo.alice = Some "alice"
  /\ matchmakingQueue initialServer = []
  /\ exists g pb,
       JsMap.get
         (games (fst (on_find Demo.alice "g1" true 6000
                        (fst (on_find Demo.alice "g0" true 5000 initialServer))))) "g1"
       = Some g
       /\ players_black g = Some pb
       /\ p_id (players_white g) = "sockA"
       /\ p_id pb = "sockA".
Proof.
  assert (Hu : user Demo.alice = Some "alice") by reflexivity.
  assert (Hq : matchmakingQueue initialServer = []) by reflexivity.
  split; [assumption|]. split; [assumption|].
  destruct (@same_connection_paired_with_itself Demo.alice "alice" "g0" "g1" true true
              5000 6000 initialServer Hu Hq) as (_ & _ & _ & H).
  exact H.
Defined.

(** ** Timers live in the closure of the connection that armed them *)

(** C1 (the code departs from it). Alice creates a session, bob joins at
    instant 5000 and alice plays e2-e4 one second later, with 599 seconds
    left on her clock.  The join armed white's timer in bob's closure;
    alice's move arms black's timer in her own closure and clears nothing
    in bob's.  Two timers are then pending for the one session, and when
    the older one runs at instant 606000 it ends the session as a timeout
    of white. *)
Theorem stale_timer_of_other_closure_fires :
  let evs := [EvCreate Demo.alice Falsy "g1";
              EvJoin Demo.bob "g1" 5000;
              EvMove Demo.alice "g1" Demo.e2 Demo.e4 6000 6000] in
  let r := run Demo.pawnRules evs in
  let r' := run Demo.pawnRules (evs ++ [EvTimer 0%nat 606000]) in
  let lost := {| winner := "black"; reason := "Timeout" |} in
  crashed r = false
  /\ (exists g, JsMap.get (games (server r)) "g1" = Some g
        /\ turn g = black /\ whiteTime g = 599000 /\ blackTime g = 600000)
  /\ timers_of "g1" (server r)
     = [(0%nat, {| t_owner := "sockB"; t_game := "g1"; t_color := white;
                   t_due := 606000 |});
        (1%nat, {| t_owner := "sockA"; t_game := "g1"; t_color := black;
                   t_due := 607000 |})]
  /\ outputs r' = outputs r ++ [Broadcast "g1" (GAME_OVER lost);
                                DbSave "g1" "alice" "bob" lost]
  /\ games (server r') = [].
Proof.
  intros evs r r' lost.
  split; [reflexivity|]. split.
  - eexists. split; [vm_compute; reflexivity|]. repeat split.
  - repeat split; vm_compute; reflexivity.
Qed.

(** C4 (the code departs from it). Same session, but alice's move
    arrives at instant 605500, after her ten minutes and before the timer
    of instant 606000 has run.  The elapsed 600500 ms are charged to
    white, white is at -500, the session ends as a timeout of white and
    the move is not applied; the pending timer, held in bob's closure, is
    still in the runtime's table afterwards. *)
Theorem timeout_on_arrival_leaves_timer_pending :
  let evs := [EvCreate Demo.alice Falsy "g1";
              EvJoin Demo.bob "g1" 5000;
              EvMove Demo.alice "g1" Demo.e2 Demo.e4 605500 605500] in
  let before := run Demo.pawnRules [EvCreate Demo.alice Falsy "g1";
                                    EvJoin Demo.bob "g1" 5000] in
  let r := run Demo.pawnRules evs in
  let lost := {| winner := "black"; reason := "Timeout" |} in
  let w := {| p_id := "sockA"; p_user := Some "alice" |} in
  let b := {| p_id := "sockB"; p_user := Some "bob" |} in
  crashed r = false
  /\ outputs r = outputs before ++ [Broadcast "g1" (GAME_OVER lost);
                                    DbSave "g1" "alice" "bob" lost]
  /\ charge (set_lastMoveTime (newGame w (Some b) 600000) (Some 5000)) 605500
     = set_whiteTime (set_lastMoveTime (newGame w (Some b) 600000) (Some 5000)) (-500)
  /\ games (server r) = []
  /\ timers (server before)
     = [(0%nat, {| t_owner := "sockB"; t_game := "g1"; t_color := white;
                   t_due := 606000 |})]
  /\ timers (server r) = timers (server before)
  /\ gameTimeouts (server r) = [("sockB", "g1", 0%nat)].
Proof.
  intros evs before r lost w b.
  repeat split; vm_compute; reflexivity.
Qed.

(** C5 (the code departs from it). Alice created a session and moved
    before anyone joined, so black is to move and has no participant.
    Bob, who is not the participant of the side to move, submits a move:
    the handler throws at [players.black.id] and no "It's not your turn."
    is sent. *)
Theorem turn_check_throws_without_black :
  let r := run Demo.pawnRules
             [EvCreate Demo.alice Falsy "g1";
              EvMove Demo.alice "g1" Demo.e2 Demo.e4 6000 6000] in
  crashed r = false
  /\ (exists g, JsMap.get (games (server r)) "g1" = Some g
        /\ turn g = black /\ players_black g = None)
  /\ on_move Demo.pawnRules Demo.bob "g1" (1, 4)%nat (3, 4)%nat 7000 7000 (server r)
     = TypeError
  /\ outputs (run_event Demo.pawnRules r
                (EvMove Demo.bob "g1" (1, 4)%nat (3, 4)%nat 7000 7000))
     = outputs r.
Proof.
  intro r. split; [reflexivity|]. split.
  - eexists. split; [vm_compute; reflexivity|]. split; reflexivity.
  - split; vm_compute; reflexivity.
Qed.

(** ** What one handler does to the store and to the terminal broadcasts *)

Lemma count_game_over_app gid out1 out2 :
  count_game_over gid (out1 ++ out2)
  = (count_game_over gid out1 + count_game_over gid out2)%nat.
Proof. unfold count_game_over. now rewrite filter_app, length_app. Qed.

Lemma count_game_over_final gameId game status gid :
  count_game_over gid (Broadcast gameId (GAME_OVER status) :: saveGame gameId game status)
  = if String.eqb gameId gid then 1%nat else 0%nat.
Proof.
  change (Broadcast gameId (GAME_OVER status) :: saveGame gameId game status)
    with ([Broadcast gameId (GAME_OVER status)] ++ saveGame gameId game status).
  rewrite count_game_over_app, saveGame_no_broadcast.
  unfold count_game_over. simpl. now destruct (String.eqb gameId gid).
Qed.

Lemma store_effect_prefix new ks ks' out0 out :
  (forall gid, count_game_over gid out0 = 0%nat) ->
  store_effect new ks ks' out ->
  store_effect new ks ks' (out0 ++ out).
Proof.
  intros H0 [Hk Hc|g Hin Hk Hc|g Hin Hk Hnd Hc].
  - apply eff_quiet; [assumption|]. intro gid. now rewrite count_game_over_app, H0, Hc.
  - apply eff_final with g; try assumption.
    intro gid. now rewrite count_game_over_app, H0, Hc.
  - apply eff_new with g; try assumption.
    intro gid. now rewrite count_game_over_app, H0, Hc.
Qed.

Lemma store_effect_same new st out :
  (forall gid, count_game_over gid out = 0%nat) ->
  store_effect new (JsMap.keys (games st)) (JsMap.keys (games st)) out.
Proof. intro H. now apply eff_quiet. Qed.

Section HandlerEffects.
Variable rules : RulesOracle.
Variable new : list GameId.

Lemma handleTimeout_effect c gameId color st :
  let r := handleTimeout c gameId color st in
  store_effect new (JsMap.keys (games st)) (JsMap.keys (games (fst r))) (snd r)
  /\ matchmakingQueue (fst r) = matchmakingQueue st.
Proof.
  intro r. subst r. unfold handleTimeout.
  destruct (JsMap.get (games st) gameId) as [game|] eqn:Hg; simpl.
  - split; [|reflexivity]. apply eff_final with gameId.
    + eapply get_in_keys; eassumption.
    + exact (keys_delete_filter (games st) gameId).
    + intro gid. apply count_game_over_final.
  - split; [|reflexivity]. now apply store_effect_same.
Qed.

Lemma setGameTimeout_effect c gameId d color now st :
  let r := setGameTimeout c gameId d color now st in
  store_effect new (JsMap.keys (games st)) (JsMap.keys (games (fst r))) (snd r)
  /\ matchmakingQueue (fst r) = matchmakingQueue st.
Proof.
  intro r. subst r.
  destruct (Z.lt_ge_cases 0 d) as [Hpos|Hneg].
  - destruct (setGameTimeout_positive c gameId color now st Hpos) as (Ho & Hg & Hq & _).
    rewrite Ho, Hg, Hq. split; [|reflexivity]. now apply store_effect_same.
  - rewrite setGameTimeout_expired by assumption.
    destruct (handleTimeout_effect c gameId color (clearGameTimeout c gameId st)) as [He Hq].
    rewrite clearGameTimeout_games in He. rewrite clearGameTimeout_queue in Hq.
    split; assumption.
Qed.

Lemma on_create_effect socket payload uuid st :
  In uuid new ->
  let r := on_create socket payload uuid st in
  store_effect new (JsMap.keys (games st)) (JsMap.keys (games (fst r))) (snd r)
  /\ matchmakingQueue (fst r) = matchmakingQueue st.
Proof.
  intros Hin r. subst r. unfold on_create.
  destruct (user socket); simpl.
  - split; [|reflexivity]. apply eff_new with uuid.
    + assumption.
    + intro x. apply keys_set.
    + apply NoDup_keys_set.
    + reflexivity.
  - split; [|reflexivity]. now apply store_effect_same.
Qed.

Lemma on_join_effect socket gameId now st :
  let r := on_join socket gameId now st in
  store_effect new (JsMap.keys (games st)) (JsMap.keys (games (fst r))) (snd r)
  /\ matchmakingQueue (fst r) = matchmakingQueue st.
Proof.
  intro r. subst r. unfold on_join.
  destruct (user socket) as [u|];
    [|split; [now apply store_effect_same|reflexivity]].
  destruct (JsMap.get (games st) gameId) as [game|];
    [|split; [now apply store_effect_same|reflexivity]].
  destruct (players_black game);
    [split; [now apply store_effect_same|reflexivity]|].
  destruct (String.eqb (p_id (players_white game)) (id socket));
    [split; [now apply store_effect_same|reflexivity]|].
  set (game1 := set_black game _).
  set (st3 := store (with_rooms _ _) gameId _).
  assert (Hk : JsMap.keys (games st3) = JsMap.keys (games st)).
  { subst st3. unfold store. simpl. now rewrite !keys_modify. }
  destruct (setGameTimeout_effect (id socket) gameId
              (whiteTime (set_lastMoveTime game1 (Some now))) white now st3) as [He Hq].
  destruct (setGameTimeout (id socket) gameId _ white now st3) as [st4 out2].
  cbn [fst snd] in *. rewrite Hk in He. split; [|exact Hq].
  apply store_effect_prefix; [reflexivity|assumption].
Qed.

Lemma on_timer_effect h now st :
  let r := on_timer h now st in
  store_effect new (JsMap.keys (games st)) (JsMap.keys (games (fst r))) (snd r)
  /\ matchmakingQueue (fst r) = matchmakingQueue st.
Proof.
  intro r. subst r. unfold on_timer.
  destruct (JsMap.get (timers st) h) as [tm|];
    [|split; [now apply store_effect_same|reflexivity]].
  destruct (t_due tm <=? now);
    [|split; [now apply store_effect_same|reflexivity]].
  apply (handleTimeout_effect (t_owner tm) (t_game tm) (t_color tm)
           (with_timers st (JsMap.delete (timers st) h) (nextTimer st))).
Qed.

End HandlerEffects.

Section MoreHandlerEffects.
Variable rules : RulesOracle.
Variable new : list GameId.

Lemma pair_effect socket uuid coin now st :
  In uuid new ->
  let r := pair socket uuid coin now st in
  store_effect new (JsMap.keys (games st)) (JsMap.keys (games (fst r))) (snd r)
  /\ matchmakingQueue (fst r)
     = match matchmakingQueue st with
       | _ :: _ :: q' => q'
       | q => q
       end.
Proof.
  intros Hin r. subst r.
  destruct (matchmakingQueue st) as [|s1 [|s2 rest]] eqn:Hq.
  - unfold pair. rewrite Hq. split; [now apply store_effect_same|assumption].
  - rewrite (@pair_single socket uuid coin now st s1 Hq).
    split; [now apply store_effect_same|assumption].
  - destruct (@pair_two_oldest socket uuid coin now st s1 s2 rest Hq) as (Hq' & _ & Ho).
    split; [|exact Hq'].
    apply eff_new with uuid; [assumption| | |].
    + unfold pair. rewrite Hq.
      set (g := newGame _ _ _). set (st4 := with_games _ _).
      assert (Hpos : 0 < whiteTime (set_lastMoveTime g (Some now)))
        by (subst g; destruct coin; reflexivity).
      destruct (setGameTimeout_positive (id socket) uuid white now st4 Hpos)
        as (_ & Hgm & _).
      destruct (setGameTimeout (id socket) uuid _ white now st4) as [st5 out2].
      cbn [fst snd] in *. rewrite Hgm. subst st4. cbn [games with_games with_rooms with_queue].
      rewrite keys_modify. intro x. apply keys_set.
    + unfold pair. rewrite Hq.
      set (g := newGame _ _ _). set (st4 := with_games _ _).
      assert (Hpos : 0 < whiteTime (set_lastMoveTime g (Some now)))
        by (subst g; destruct coin; reflexivity).
      destruct (setGameTimeout_positive (id socket) uuid white now st4 Hpos)
        as (_ & Hgm & _).
      destruct (setGameTimeout (id socket) uuid _ white now st4) as [st5 out2].
      cbn [fst snd] in *. rewrite Hgm. subst st4. cbn [games with_games with_rooms with_queue].
      rewrite keys_modify. apply NoDup_keys_set.
    + intro gid. rewrite Ho. reflexivity.
Qed.

Lemma on_find_effect socket uuid coin now st :
  In uuid new ->
  let r := on_find socket uuid coin now st in
  store_effect new (JsMap.keys (games st)) (JsMap.keys (games (fst r))) (snd r)
  /\ ((List.length (matchmakingQueue st) <= 1)%nat ->
      (List.length (matchmakingQueue (fst r)) <= 1)%nat).
Proof.
  intros Hin r. subst r. unfold on_find.
  destruct (user socket) as [u|]; [|split; [now apply store_effect_same|auto]].
  set (st1 := enqueue socket (with_cancelListeners st _)).
  destruct (pair_effect socket uuid coin now st1 Hin) as [He Hq].
  destruct (pair socket uuid coin now st1) as [st2 out]. cbn [fst snd] in *.
  split.
  - change (Emit (id socket) GAME_FINDING :: out)
      with ([Emit (id socket) GAME_FINDING] ++ out).
    apply store_effect_prefix; [reflexivity|exact He].
  - intro Hlen. rewrite Hq. subst st1. unfold enqueue. simpl.
    destruct (matchmakingQueue st) as [|s1 [|s2 rest]]; simpl in *; lia.
Qed.

Lemma length_splice_first sid q :
  (List.length (splice_first sid q) <= List.length q)%nat.
Proof.
  induction q as [|s q IH]; simpl; [lia|].
  destruct (String.eqb (id s) sid); simpl; lia.
Qed.

Lemma length_run_cancel n sid q :
  (List.length (run_cancel n sid q) <= List.length q)%nat.
Proof.
  revert q; induction n as [|n IH]; intro q; simpl; [lia|].
  specialize (IH (splice_first sid q)).
  pose proof (length_splice_first sid q). lia.
Qed.

Lemma on_find_cancel_effect socket st :
  let r := on_find_cancel socket st in
  store_effect new (JsMap.keys (games st)) (JsMap.keys (games (fst r))) (snd r)
  /\ (List.length (matchmakingQueue (fst r)) <= List.length (matchmakingQueue st))%nat.
Proof.
  intro r. subst r. unfold on_find_cancel. simpl.
  split; [now apply store_effect_same|apply length_run_cancel].
Qed.

Lemma find_participant_some sid m gameId game :
  find_participant sid m = Some (gameId, game) ->
  is_participant sid game = true
  /\ exists pre post,
       m = pre ++ (gameId, game) :: post
       /\ forall k g, In (k, g) pre -> is_participant sid g = false.
Proof.
  induction m as [|[k g] m IH]; simpl; [discriminate|].
  destruct (is_participant sid g) eqn:Hp.
  - intro H. inversion H; subst. split; [assumption|].
    exists [], m. split; [reflexivity|]. intros ? ? [].
  - intro H. destruct (IH H) as (Hgame & pre & post & Hm & Hpre).
    split; [assumption|]. exists ((k, g) :: pre), post. split; [now rewrite Hm|].
    intros k0 g0 [Heq|Hin]; [inversion Heq; now subst|eauto].
Qed.


Lemma on_disconnect_effect socket st :
  let r := on_disconnect socket st in
  store_effect new (JsMap.keys (games st)) (JsMap.keys (games (fst r))) (snd r)
  /\ (List.length (matchmakingQueue (fst r)) <= List.length (matchmakingQueue st))%nat.
Proof.
  intro r. subst r. unfold on_disconnect. cbn [games with_queue].
  destruct (find_participant (id socket) (games st)) as [[gameId game]|] eqn:Hf.
  - destruct (find_participant_some _ _ Hf) as (_ & pre & post & Hm & _).
    cbn [fst snd games with_games matchmakingQueue].
    rewrite clearGameTimeout_games, clearGameTimeout_queue. cbn [games matchmakingQueue with_queue].
    split; [|apply length_splice_first].
    apply eff_final with gameId.
    + rewrite Hm. unfold JsMap.keys. rewrite map_app. apply in_or_app. right. now left.
    + exact (keys_delete_filter (games st) gameId).
    + intro gid. apply count_game_over_final.
  - cbn [fst snd games matchmakingQueue with_queue].
    split; [now apply store_effect_same|apply length_splice_first].
Qed.

Lemma on_move_effect socket gameId from to n1 n2 st st' out :
  on_move rules socket gameId from to n1 n2 st = Ret (st', out) ->
  store_effect new (JsMap.keys (games st)) (JsMap.keys (games st')) out
  /\ matchmakingQueue st' = matchmakingQueue st.
Proof.
  intro Hmove.
  destruct (JsMap.get (games st) gameId) as [game|] eqn:Hg.
  2:{ rewrite on_move_unknown in Hmove by assumption. inversion Hmove; subst.
      split; [now apply store_effect_same|reflexivity]. }
  destruct (playerSocketId game) as [psid|] eqn:Hp.
  2:{ unfold on_move in Hmove. rewrite Hg, Hp in Hmove. discriminate. }
  destruct (String.eqb_spec (id socket) psid) as [Heq|Hne].
  2:{ rewrite (@on_move_not_your_turn rules socket gameId game psid from to n1 n2 st Hg Hp Hne)
        in Hmove.
      inversion Hmove; subst. split; [now apply store_effect_same|reflexivity]. }
  subst psid.
  destruct (isValidMoveWasm rules (board game) from to (turn game)) as [[|]|] eqn:Hv.
  - destruct ((whiteTime (charge game n1) <=? 0) || (blackTime (charge game n1) <=? 0)) eqn:Ht.
    + unfold on_move in Hmove. rewrite Hg, Hp in Hmove. cbn [bind] in Hmove.
      rewrite String.eqb_refl in Hmove. cbn [negb] in Hmove.
      rewrite Hv in Hmove. cbn [bind] in Hmove. rewrite Ht in Hmove.
      inversion Hmove; subst. cbn [games with_games matchmakingQueue].
      rewrite clearGameTimeout_games, clearGameTimeout_queue.
      unfold store. cbn [games with_games matchmakingQueue].
      split; [|reflexivity].
      apply eff_final with gameId.
      * eapply get_in_keys; eassumption.
      * rewrite <- (keys_modify (games st) gameId (fun _ => charge game n1)).
        exact (keys_delete_filter _ gameId).
      * intro gid. apply count_game_over_final.
    + apply orb_false_iff in Ht. destruct Ht as [Hw Hb].
      apply Z.leb_gt in Hw, Hb.
      destruct (@isValidMoveWasm_relocate rules _ _ _ _ _ Hv) as [b' Hrel].
      destruct (@on_move_accepted rules socket gameId game from to n1 n2 st b'
                  Hg Hp Hv Hw Hb Hrel) as (st'' & Hmove' & _ & _ & _ & Hk & Hq).
      rewrite Hmove in Hmove'. inversion Hmove'; subst st'' out. clear Hmove'.
      split; [|exact Hq].
      destruct (getGameStatus rules b' (other (turn game)) (isValidMoveWasm rules))
        as [status|].
      * change (Broadcast gameId (GAME_STATE b' (other (turn game)) None
                  (if isKingInCheck rules b' (other (turn game)) (isValidMoveWasm rules)
                   then Some (other (turn game)) else None)
                  (whiteTime (charge game n1)) (blackTime (charge game n1)) (Some n2))
                :: Broadcast gameId (GAME_OVER status) :: saveGame gameId _ status)
          with ([Broadcast gameId (GAME_STATE b' (other (turn game)) None
                  (if isKingInCheck rules b' (other (turn game)) (isValidMoveWasm rules)
                   then Some (other (turn game)) else None)
                  (whiteTime (charge game n1)) (blackTime (charge game n1)) (Some n2))]
                ++ Broadcast gameId (GAME_OVER status) :: saveGame gameId
                     (set_position (set_lastMoveTime (charge game n1) (Some n2)) b'
                        (other (turn game))
                        (if isKingInCheck rules b' (other (turn game)) (isValidMoveWasm rules)
                         then Some (other (turn game)) else None)) status).
        apply store_effect_prefix; [reflexivity|].
        apply eff_final with gameId.
        -- eapply get_in_keys; eassumption.
        -- exact Hk.
        -- intro gid. apply count_game_over_final.
      * apply eff_quiet; [exact Hk|reflexivity].
  - unfold on_move in Hmove. rewrite Hg, Hp in Hmove. cbn [bind] in Hmove.
    rewrite String.eqb_refl in Hmove. cbn [negb] in Hmove.
    rewrite Hv in Hmove. cbn [bind] in Hmove.
    inversion Hmove; subst. split; [now apply store_effect_same|reflexivity].
  - unfold on_move in Hmove. rewrite Hg, Hp in Hmove. cbn [bind] in Hmove.
    rewrite String.eqb_refl in Hmove. cbn [negb] in Hmove.
    rewrite Hv in Hmove. discriminate.
Qed.

End MoreHandlerEffects.

(** ** Invariants of runs *)



Lemma store_effect_keys new ks ks' out x :
  store_effect new ks ks' out -> In x ks' -> In x ks \/ In x new.
Proof.
  intros [Hk _|g _ Hk _|g Hin Hk _ _] H; subst.
  - now left.
  - apply filter_In in H. now left.
  - apply Hk in H. destruct H as [->|H]; auto.
Qed.



(** ** Events with any payload *)

Section PayloadEvents.
Variable rules : RulesOracle.

Lemma on_join_payload_key socket gameId now st :
  on_join_payload socket (JoinOf (Key gameId)) now st
  = Ret (on_join socket gameId now st).
Proof. reflexivity. Qed.

Lemma on_move_payload_squares socket gameId from to n1 n2 st :
  on_move_payload rules socket (MoveOf (Key gameId) (Square from) (Square to)) n1 n2 st
  = on_move rules socket gameId from to n1 n2 st.
Proof. reflexivity. Qed.

(** A payload without the expected shape makes the handler throw, or
    return with at most one error and the state untouched. *)
Lemma on_join_payload_inv socket payload now st st' out :
  on_join_payload socket payload now st = Ret (st', out) ->
  (st' = st /\ exists m, out = [Emit (id socket) (GAME_ERROR m)])
  \/ exists gameId,
       payload = JoinOf (Key gameId) /\ on_join socket gameId now st = (st', out).
Proof.
  destruct payload as [|[|gameId]]; cbn [on_join_payload]; intro H.
  - discriminate.
  - left. destruct (user socket); inversion H; subst; split; eauto.
  - right. exists gameId. split; [reflexivity|congruence].
Qed.

Lemma on_move_payload_inv socket payload n1 n2 st st' out :
  on_move_payload rules socket payload n1 n2 st = Ret (st', out) ->
  (st' = st /\ (out = [] \/ exists m, out = [Emit (id socket) (GAME_ERROR m)]))
  \/ exists gameId from to,
       payload = MoveOf (Key gameId) (Square from) (Square to)
       /\ on_move rules socket gameId from to n1 n2 st = Ret (st', out).
Proof.
  assert (Hbad : forall gameId,
            match JsMap.get (games st) gameId with
            | None => Ret (st, [])
            | Some game =>
                psid <- playerSocketId game ;;
                if negb (String.eqb (id socket) psid)
                then Ret (st, [Emit (id socket) (GAME_ERROR "It's not your turn.")])
                else TypeError
            end = Ret (st', out) ->
            st' = st /\ (out = [] \/ exists m, out = [Emit (id socket) (GAME_ERROR m)])).
  { intros gameId H. destruct (JsMap.get (games st) gameId) as [game|].
    - destruct (playerSocketId game) as [psid|]; cbn [bind] in H; [|discriminate].
      destruct (negb (String.eqb (id socket) psid)); [|discriminate].
      inversion H; subst. split; eauto.
    - inversion H; subst. auto. }
  destruct payload as [|[|gameId] from to]; cbn [on_move_payload]; intro H.
  - discriminate.
  - left. inversion H; subst. auto.
  - destruct from as [| |from]; [left; eapply Hbad; eassumption
                                |left; eapply Hbad; eassumption|].
    destruct to as [| |to]; [left; eapply Hbad; eassumption
                            |left; eapply Hbad; eassumption|].
    right. exists gameId, from, to. split; [reflexivity|assumption].
Qed.

(** What holds of every event of the expected shape, and of a handler
    that returns with at most one error and the state untouched, holds
    of every event. *)
Lemma step_payload_reduce (P : list GameId -> Server -> Server -> list Output -> Prop) :
  (forall e st st' out,
     shaped e -> step rules e st = Ret (st', out) -> P (generated_ids [e]) st st' out) ->
  (forall st, P [] st st []) ->
  (forall st sid m, P [] st st [Emit sid (GAME_ERROR m)]) ->
  forall e st st' out,
    step rules e st = Ret (st', out) -> P (generated_ids [e]) st st' out.
Proof.
  intros Hshaped Hquiet Herr e st st' out H.
  destruct e as [s p u|s u c n|s|s g n|s g f t n1 n2|s|h n|s p n|s p n1 n2];
    try (apply Hshaped; [exact I|exact H]); cbn [step] in H.
  - apply on_join_payload_inv in H.
    destruct H as [(-> & m & ->)|(g & _ & H)]; [apply Herr|].
    apply (Hshaped (EvJoin s g n)); [exact I|]. cbn [step]. now rewrite H.
  - apply on_move_payload_inv in H.
    destruct H as [(-> & [->|(m & ->)])|(g & f & t & _ & H)];
      [apply Hquiet|apply Herr|].
    apply (Hshaped (EvMove s g f t n1 n2)); [exact I|exact H].
Qed.

End PayloadEvents.

Section RunInvariants.
Variable rules : RulesOracle.

Lemma step_effect e st st' out :
  step rules e st = Ret (st', out) ->
  store_effect (generated_ids [e]) (JsMap.keys (games st)) (JsMap.keys (games st')) out
  /\ ((List.length (matchmakingQueue st) <= 1)%nat ->
      (List.length (matchmakingQueue st') <= 1)%nat).
Proof.
  revert e st st' out.
  apply (@step_payload_reduce rules (fun ids st st' out =>
           store_effect ids (JsMap.keys (games st)) (JsMap.keys (games st')) out
           /\ ((List.length (matchmakingQueue st) <= 1)%nat ->
               (List.length (matchmakingQueue st') <= 1)%nat))).
  2:{ intro st. split; [now apply eff_quiet|auto]. }
  2:{ intros st sid m. split; [now apply eff_quiet|auto]. }
  intros e st st' out Hsh.
  destruct e as [s p u|s u c n|s|s g n|s g f t n1 n2|s|h n|s p n|s p n1 n2];
    try destruct Hsh; cbn [step]; intro H.
  - assert (Hr : on_create s p u st = (st', out)) by congruence.
    destruct (@on_create_effect (generated_ids [EvCreate s p u]) s p u st) as [He Hq];
      [now left|].
    rewrite Hr in He, Hq. cbn [fst snd] in He, Hq. split; [exact He|]. now rewrite Hq.
  - assert (Hr : on_find s u c n st = (st', out)) by congruence.
    destruct (@on_find_effect (generated_ids [EvFind s u c n]) s u c n st) as [He Hq];
      [now left|].
    rewrite Hr in He, Hq. cbn [fst snd] in He, Hq. split; assumption.
  - assert (Hr : on_find_cancel s st = (st', out)) by congruence.
    destruct (on_find_cancel_effect (generated_ids [EvFindCancel s]) s st) as [He Hq].
    rewrite Hr in He, Hq. cbn [fst snd] in He, Hq. split; [exact He|]. lia.
  - assert (Hr : on_join s g n st = (st', out)) by congruence.
    destruct (on_join_effect (generated_ids [EvJoin s g n]) s g n st) as [He Hq].
    rewrite Hr in He, Hq. cbn [fst snd] in He, Hq. split; [exact He|]. now rewrite Hq.
  - destruct (@on_move_effect rules (generated_ids [EvMove s g f t n1 n2])
                s g f t n1 n2 st st' out H) as [He Hq].
    split; [exact He|]. now rewrite Hq.
  - assert (Hr : on_disconnect s st = (st', out)) by congruence.
    destruct (on_disconnect_effect (generated_ids [EvDisconnect s]) s st) as [He Hq].
    rewrite Hr in He, Hq. cbn [fst snd] in He, Hq. split; [exact He|]. lia.
  - assert (Hr : on_timer h n st = (st', out)) by congruence.
    destruct (on_timer_effect (generated_ids [EvTimer h n]) h n st) as [He Hq].
    rewrite Hr in He, Hq. cbn [fst snd] in He, Hq. split; [exact He|]. now rewrite Hq.
Qed.






End RunInvariants.

(** ** One terminal broadcast per session *)


Section AtMostOnce.
Variable rules : RulesOracle.


End AtMostOnce.


(** ** disconnect *)


Section Disconnect.
Variable rules : RulesOracle.



End Disconnect.


(** ** A timeout discovered when the move arrives *)

Section TimeoutOnArrival.
Variable rules : RulesOracle.

Lemma clearGameTimeout_entry c gameId st :
  JsMap.get (gameTimeouts (clearGameTimeout c gameId st)) (c, gameId) = None.
Proof.
  unfold clearGameTimeout.
  destruct (JsMap.get (gameTimeouts st) (c, gameId)) eqn:E; [|assumption].
  cbn [gameTimeouts with_gameTimeouts with_timers]. apply get_delete_same.
Qed.

(** [clearGameTimeout] in the closure of [c] takes out of the runtime's
    table the one handle that this closure holds, and no other. *)
Lemma clearGameTimeout_timers c gameId st h :
  JsMap.get (gameTimeouts st) (c, gameId) <> Some h ->
  JsMap.get (timers (clearGameTimeout c gameId st)) h = JsMap.get (timers st) h.
Proof.
  intro Hne. unfold clearGameTimeout.
  destruct (JsMap.get (gameTimeouts st) (c, gameId)) as [h0|] eqn:E; [|reflexivity].
  cbn [timers with_gameTimeouts with_timers]. apply get_delete_other. congruence.
Qed.

(** The part of C4 that the handler does keep: the elapsed time is
    charged to the mover; with a clock at or below zero the session ends
    as a timeout of white when white is at or below zero and of black
    otherwise, the board and the turn of the session as saved are those
    before the move, and the session leaves the store.  Of the pending
    timers only the one held in the mover's own closure is cancelled. *)
Lemma on_move_timeout_on_arrival socket gameId game from to n1 n2 st last :
  JsMap.get (games st) gameId = Some game ->
  playerSocketId game = Ret (id socket) ->
  isValidMoveWasm rules (board game) from to (turn game) = Ret true ->
  truthy_time (lastMoveTime game) = Some last ->
  whiteTime (charge game n1) <= 0 \/ blackTime (charge game n1) <= 0 ->
  let game1 := charge game n1 in
  let status := {| winner := if whiteTime game1 <=? 0 then "black" else "white";
                   reason := "Timeout" |} in
  exists st',
    on_move rules socket gameId from to n1 n2 st
    = Ret (st', Broadcast gameId (GAME_OVER status) :: saveGame gameId game1 status)
    /\ time_of (turn game) game1 = time_of (turn game) game - (n1 - last)
    /\ board game1 = board game
    /\ turn game1 = turn game
    /\ JsMap.get (games st') gameId = None
    /\ JsMap.get (gameTimeouts st') (id socket, gameId) = None
    /\ forall h, JsMap.get (gameTimeouts st) (id socket, gameId) <> Some h ->
                 JsMap.get (timers st') h = JsMap.get (timers st) h.
Proof.
  intros Hg Hp Hv Hl Hle game1 status.
  assert (Ht : (whiteTime game1 <=? 0) || (blackTime game1 <=? 0) = true).
  { apply orb_true_iff. destruct Hle as [H|H]; [left|right]; now apply Z.leb_le. }
  unfold on_move. rewrite Hg, Hp. cbn [bind]. rewrite String.eqb_refl. cbn [negb].
  rewrite Hv. cbn [bind]. fold game1. rewrite Ht.
  eexists. split; [reflexivity|].
  split; [exact (proj1 (charge_time game n1 Hl))|].
  split; [apply charge_board|]. split; [apply charge_turn|].
  cbn [games gameTimeouts timers with_games].
  split; [apply get_delete_same|]. split; [apply clearGameTimeout_entry|].
  intros h Hne.
  exact (@clearGameTimeout_timers (id socket) gameId (store st gameId game1) h Hne).
Qed.

End TimeoutOnArrival.

(** ** Arrays, boards and the validator's buffer *)

Section ArrayFacts.
Context {A : Type} (undef : A).

Lemma js_set_length (a : list A) i v :
  List.length (js_set undef a i v) = Nat.max (List.length a) (S i).
Proof.
  revert i; induction a as [|x a IH]; intro i.
  - induction i as [|i IHi]; simpl; [reflexivity|].
    simpl in IHi. rewrite IHi. reflexivity.
  - destruct i as [|i]; simpl; [|now rewrite IH].
    destruct (List.length a); reflexivity.
Qed.

Lemma js_get_set_same (a : list A) i v : js_get undef (js_set undef a i v) i = v.
Proof.
  unfold js_get. revert i; induction a as [|x a IH]; intro i.
  - induction i as [|i IHi]; simpl; [reflexivity|exact IHi].
  - destruct i as [|i]; simpl; [reflexivity|apply IH].
Qed.

Lemma js_get_set_other (a : list A) i j v :
  i <> j -> js_get undef (js_set undef a i v) j = js_get undef a j.
Proof.
  unfold js_get. revert i j; induction a as [|x a IH]; intros i j Hne.
  - revert j Hne. induction i as [|i IHi]; intros j Hne.
    + destruct j as [|j]; [congruence|]. simpl. now destruct j.
    + destruct j as [|j]; simpl; [reflexivity|].
      rewrite IHi by congruence. now destruct j.
  - destruct i as [|i], j as [|j]; simpl; try congruence.
    apply IH. congruence.
Qed.

Lemma nth_error_js_set_same (a : list A) i v :
  nth_error (js_set undef a i v) i = Some v.
Proof.
  revert i; induction a as [|x a IH]; intro i.
  - induction i as [|i IHi]; simpl; [reflexivity|exact IHi].
  - destruct i as [|i]; simpl; [reflexivity|apply IH].
Qed.

End ArrayFacts.

Section BoardFacts.

Lemma relocate_inv b fr fc tr tc b' :
  relocate b (fr, fc) (tr, tc) = Ret b' ->
  exists rowt rowf rowf',
    nth_error b tr = Some rowt
    /\ nth_error b fr = Some rowf
    /\ nth_error (js_set [] b tr (js_set Undef rowt tc (js_get Undef rowf fc))) fr
       = Some rowf'
    /\ b' = js_set [] (js_set [] b tr (js_set Undef rowt tc (js_get Undef rowf fc)))
              fr (js_set Undef rowf' fc (Str "")).
Proof.
  unfold relocate.
  destruct (nth_error b tr) as [rowt|]; [|discriminate].
  destruct (nth_error b fr) as [rowf|]; [|discriminate].
  destruct (nth_error _ fr) as [rowf'|] eqn:E; [|discriminate].
  intro H. inversion H. exists rowt, rowf, rowf'. auto.
Qed.

Lemma nth_error_js_get (b : Board) r row :
  nth_error b r = Some row -> js_get [] b r = row.
Proof. intro H. unfold js_get. now apply nth_error_nth. Qed.

Lemma relocate_length b from to b' :
  relocate b from to = Ret b' -> List.length b' = List.length b.
Proof.
  destruct from as [fr fc], to as [tr tc]. intro H.
  destruct (relocate_inv _ _ _ _ _ H) as (rt & rf & rf' & Ht & Hf & _ & ->).
  assert (fr < List.length b)%nat by (apply nth_error_Some; congruence).
  assert (tr < List.length b)%nat by (apply nth_error_Some; congruence).
  rewrite !js_set_length. lia.
Qed.

(** X1. The three assignments that move a piece succeed exactly when
    both row indices name an existing row of the board, and throw
    otherwise; when they succeed the board keeps its number of rows,
    whatever the column indices are. *)
Theorem relocate_defined b from to :
  ((exists b', relocate b from to = Ret b')
   <-> (fst from < List.length b)%nat /\ (fst to < List.length b)%nat)
  /\ forall b', relocate b from to = Ret b' -> List.length b' = List.length b.
Proof.
  split; [|intros b' H; eapply relocate_length; eassumption].
  destruct from as [fr fc], to as [tr tc]. simpl. split.
  - intros [b' H]. destruct (relocate_inv _ _ _ _ _ H) as (rt & rf & _ & Ht & Hf & _).
    split; apply nth_error_Some; congruence.
  - intros [Hf Ht]. unfold relocate.
    destruct (nth_error b tr) as [rowt|] eqn:Et;
      [|apply nth_error_None in Et; lia].
    destruct (nth_error b fr) as [rowf|] eqn:Ef;
      [|apply nth_error_None in Ef; lia].
    destruct (nth_error (js_set [] b tr (js_set Undef rowt tc (js_get Undef rowf fc))) fr)
      as [rowf'|] eqn:E; [eauto|].
    apply nth_error_None in E. rewrite js_set_length in E. lia.
Qed.

(** X2. After the move the origin square is empty, the destination
    square holds what the origin square held (unless the two squares are
    the same one, which is then empty), and every other square reads as
    before. *)
Theorem relocate_cells b fr fc tr tc b' :
  relocate b (fr, fc) (tr, tc) = Ret b' ->
  cell b' fr fc = Str ""
  /\ ((fr, fc) <> (tr, tc) -> cell b' tr tc = cell b fr fc)
  /\ forall r c, (r, c) <> (fr, fc) -> (r, c) <> (tr, tc) -> cell b' r c = cell b r c.
Proof.
  intro H.
  destruct (relocate_inv _ _ _ _ _ H) as (rt & rf & rf' & Ht & Hf & Hf' & ->).
  pose proof (nth_error_js_get _ _ Ht) as Gt.
  pose proof (nth_error_js_get _ _ Hf) as Gf.
  pose proof (nth_error_js_get _ _ Hf') as Gf'.
  unfold cell. split; [|split].
  - rewrite js_get_set_same. apply js_get_set_same.
  - intro Hne. destruct (Nat.eq_dec fr tr) as [->|Hr].
    + assert (Hc : fc <> tc) by congruence.
      rewrite js_get_set_same.
      rewrite js_get_set_other by congruence.
      rewrite <- Gf'. rewrite js_get_set_same.
      rewrite js_get_set_same. now rewrite Gf.
    + rewrite js_get_set_other by congruence.
      rewrite js_get_set_same. rewrite js_get_set_same. now rewrite Gf.
  - intros r c Hf0 Ht0.
    destruct (Nat.eq_dec r fr) as [->|Hrf].
    + assert (Hc : c <> fc) by congruence.
      rewrite js_get_set_same. rewrite js_get_set_other by congruence.
      rewrite <- Gf'.
      destruct (Nat.eq_dec fr tr) as [->|Hr].
      * assert (Hc' : c <> tc) by congruence.
        rewrite js_get_set_same. rewrite js_get_set_other by congruence.
        now rewrite Gt.
      * rewrite js_get_set_other by congruence. reflexivity.
    + rewrite js_get_set_other by congruence.
      destruct (Nat.eq_dec r tr) as [->|Hrt].
      * assert (Hc' : c <> tc) by congruence.
        rewrite js_get_set_same. rewrite js_get_set_other by congruence.
        now rewrite Gt.
      * rewrite js_get_set_other by congruence. reflexivity.
Qed.

End BoardFacts.

Section BufferFacts.

Lemma board_codes_ok b rs :
  (forall r, In r rs -> (r < List.length b)%nat) ->
  board_codes b rs = Ret (flat_map (fun r => row_codes (js_get [] b r)) rs).
Proof.
  induction rs as [|r rs IH]; intro Hall; simpl; [reflexivity|].
  destruct (nth_error b r) as [row|] eqn:E.
  - rewrite IH by (intros; apply Hall; now right). simpl.
    now rewrite (nth_error_js_get _ _ E).
  - apply nth_error_None in E. specialize (Hall r (or_introl eq_refl)). lia.
Qed.

Lemma board_codes_throws b rs r :
  In r rs -> (List.length b <= r)%nat -> board_codes b rs = TypeError.
Proof.
  induction rs as [|r0 rs IH]; simpl; [tauto|].
  intros [->|Hin] Hlen.
  - apply nth_error_None in Hlen. now rewrite Hlen.
  - destruct (nth_error b r0); [|reflexivity]. now rewrite IH.
Qed.

(** X3. The buffer handed to the validator has exactly 64 bytes, byte
    [r * 8 + c] being the character code of square (r, c), with 32 for an
    empty or undefined square; squares beyond the eighth row or column
    are not looked at.  A board with fewer than eight rows makes the
    function throw. *)
Theorem writeBoardToPtr_layout b :
  ((8 <= List.length b)%nat ->
   exists buf,
     writeBoardToPtr b = Ret buf
     /\ List.length buf = 64%nat
     /\ forall r c, (r < 8)%nat -> (c < 8)%nat ->
          nth (r * 8 + c) buf 0 = cell_code (cell b r c))
  /\ ((List.length b < 8)%nat -> writeBoardToPtr b = TypeError).
Proof.
  split.
  - intro Hlen. unfold writeBoardToPtr.
    rewrite board_codes_ok
      by (intros r Hin; apply in_seq in Hin; lia).
    eexists. split; [reflexivity|]. split; [reflexivity|].
    intros r c Hr Hc. unfold cell.
    do 8 (destruct r as [|r];
          [do 8 (destruct c as [|c]; [reflexivity|]); lia|]).
    lia.
  - intro Hlen. unfold writeBoardToPtr.
    apply board_codes_throws with 7%nat; [|lia].
    apply in_seq. lia.
Qed.

End BufferFacts.

(** The opening board gives a buffer, and its byte 60 is the white king. *)
Lemma writeBoardToPtr_layout_witness :
  (8 <= List.length initialBoard)%nat
  /\ exists buf,
       writeBoardToPtr initialBoard = Ret buf
       /\ List.length buf = 64%nat
       /\ nth (7 * 8 + 4) buf 0 = 75.
Proof.
  assert (Hlen : (8 <= List.length initialBoard)%nat) by (simpl; lia).
  split; [exact Hlen|].
  destruct (proj1 (writeBoardToPtr_layout initialBoard) Hlen) as (buf & Hb & Hl & Hn).
  exists buf. split; [exact Hb|]. split; [exact Hl|].
  rewrite (Hn 7%nat 4%nat) by lia. reflexivity.
Defined.

(** e2-e4 on the opening board. *)
Lemma relocate_defined_witness :
  (fst Demo.e2 < List.length initialBoard)%nat
  /\ (fst Demo.e4 < List.length initialBoard)%nat
  /\ exists b', relocate initialBoard Demo.e2 Demo.e4 = Ret b'
                /\ List.length b' = 8%nat.
Proof.
  assert (H2 : (fst Demo.e2 < List.length initialBoard)%nat) by (simpl; lia).
  assert (H4 : (fst Demo.e4 < List.length initialBoard)%nat) by (simpl; lia).
  split; [exact H2|]. split; [exact H4|].
  destruct (relocate_defined initialBoard Demo.e2 Demo.e4) as [Hiff Hlen].
  destruct (proj2 Hiff (conj H2 H4)) as [b' Hb'].
  exists b'. split; [exact Hb'|]. exact (Hlen b' Hb').
Defined.

Lemma relocate_cells_witness :
  exists b',
    relocate initialBoard (6, 4)%nat (4, 4)%nat = Ret b'
    /\ cell b' 6 4 = Str "" /\ cell b' 4 4 = Str "P" /\ cell b' 7 4 = Str "K".
Proof.
  destruct (relocate initialBoard (6, 4)%nat (4, 4)%nat) as [b'|] eqn:E; [|discriminate].
  exists b'. split; [reflexivity|].
  destruct (@relocate_cells initialBoard 6 4 4 4 b' E) as (H1 & H2 & H3).
  split; [exact H1|]. split.
  - rewrite H2 by discriminate. reflexivity.
  - rewrite H3 by discriminate. reflexivity.
Defined.

(** ** What the timer functions leave alone *)

Section Frames.
Variable rules : RulesOracle.

Lemma clearGameTimeout_cancelListeners c gameId st :
  cancelListeners (clearGameTimeout c gameId st) = cancelListeners st.
Proof.
  unfold clearGameTimeout. now destruct (JsMap.get (gameTimeouts st) (c, gameId)).
Qed.

(** The three fields that [handleTimeout] can change, and how. *)
Lemma handleTimeout_shape c gameId color st :
  let st' := fst (handleTimeout c gameId color st) in
  matchmakingQueue st' = matchmakingQueue st
  /\ cancelListeners st' = cancelListeners st
  /\ rooms st' = rooms st
  /\ timers st' = timers st
  /\ nextTimer st' = nextTimer st
  /\ (games st' = games st \/ games st' = JsMap.delete (games st) gameId)
  /\ (gameTimeouts st' = gameTimeouts st
      \/ gameTimeouts st' = JsMap.delete (gameTimeouts st) (c, gameId)).
Proof.
  unfold handleTimeout. destruct (JsMap.get (games st) gameId); simpl; tauto.
Qed.

Lemma setGameTimeout_shape c gameId d color now st :
  let st' := fst (setGameTimeout c gameId d color now st) in
  matchmakingQueue st' = matchmakingQueue st
  /\ cancelListeners st' = cancelListeners st
  /\ rooms st' = rooms st
  /\ (games st' = games st \/ games st' = JsMap.delete (games st) gameId).
Proof.
  unfold setGameTimeout. destruct (d <=? 0).
  - destruct (handleTimeout_shape c gameId color (clearGameTimeout c gameId st))
      as (Hq & Hc & Hr & _ & _ & Hg & _).
    rewrite Hq, Hc, Hr, clearGameTimeout_queue, clearGameTimeout_cancelListeners,
      clearGameTimeout_rooms.
    rewrite clearGameTimeout_games in Hg. tauto.
  - simpl.
    rewrite clearGameTimeout_queue, clearGameTimeout_cancelListeners,
      clearGameTimeout_rooms, clearGameTimeout_games. tauto.
Qed.

(** Where a GAME_MOVE that returns leaves the server: as it was; or
    without the session, after a timeout found on arrival; or with the
    move applied, after the opponent's timer was set, and without the
    session when the status is terminal. *)
Lemma on_move_shape socket gameId from to n1 n2 st st' out :
  on_move rules socket gameId from to n1 n2 st = Ret (st', out) ->
  st' = st
  \/ (exists game,
        JsMap.get (games st) gameId = Some game
        /\ playerSocketId game = Ret (id socket)
        /\ st' = with_games
                   (clearGameTimeout (id socket) gameId (store st gameId (charge game n1)))
                   (JsMap.delete
                      (games (clearGameTimeout (id socket) gameId
                                (store st gameId (charge game n1)))) gameId))
  \/ (exists game b' chk,
        JsMap.get (games st) gameId = Some game
        /\ playerSocketId game = Ret (id socket)
        /\ relocate (board game) from to = Ret b'
        /\ 0 < time_of (other (turn game)) (charge game n1)
        /\ let game1 := charge game n1 in
           let game2 := set_lastMoveTime game1 (Some n2) in
           let st2 := fst (setGameTimeout (id socket) gameId
                             (time_of (other (turn game)) game1) (other (turn game)) n2
                             (store (store st gameId game1) gameId game2)) in
           let st3 := store st2 gameId (set_position game2 b' (other (turn game)) chk) in
           st' = st3 \/ st' = with_games st3 (JsMap.delete (games st3) gameId)).
Proof.
  intro Hmove.
  destruct (JsMap.get (games st) gameId) as [game|] eqn:Hg.
  2:{ rewrite on_move_unknown in Hmove by assumption. inversion Hmove. now left. }
  destruct (playerSocketId game) as [psid|] eqn:Hp.
  2:{ unfold on_move in Hmove. rewrite Hg, Hp in Hmove. discriminate. }
  destruct (String.eqb_spec (id socket) psid) as [Heq|Hne].
  2:{ rewrite (@on_move_not_your_turn rules socket gameId game psid from to n1 n2 st Hg Hp Hne)
        in Hmove.
      inversion Hmove. now left. }
  subst psid.
  unfold on_move in Hmove. rewrite Hg, Hp in Hmove. cbn [bind] in Hmove.
  rewrite String.eqb_refl in Hmove. cbn [negb] in Hmove.
  destruct (isValidMoveWasm rules (board game) from to (turn game)) as [[|]|] eqn:Hv;
    cbn [bind] in Hmove; [|inversion Hmove; now left|discriminate].
  destruct ((whiteTime (charge game n1) <=? 0) || (blackTime (charge game n1) <=? 0)) eqn:Ht.
  - inversion Hmove. right. left. exists game. auto.
  - apply orb_false_iff in Ht. destruct Ht as [Hw Hb]. apply Z.leb_gt in Hw, Hb.
    destruct (@isValidMoveWasm_relocate rules _ _ _ _ _ Hv) as [b' Hrel].
    assert (Hturn : turn (set_lastMoveTime (charge game n1) (Some n2)) = turn game)
      by apply charge_turn.
    rewrite Hturn in Hmove.
    change (match match turn game with white => black | black => white end with
            | white => whiteTime (set_lastMoveTime (charge game n1) (Some n2))
            | black => blackTime (set_lastMoveTime (charge game n1) (Some n2)) end)
      with (time_of (other (turn game)) (charge game n1)) in Hmove.
    change (match turn game with white => black | black => white end)
      with (other (turn game)) in Hmove.
    destruct (setGameTimeout (id socket) gameId
                (time_of (other (turn game)) (charge game n1)) (other (turn game)) n2
                (store (store st gameId (charge game n1)) gameId
                   (set_lastMoveTime (charge game n1) (Some n2)))) as [st2 out1] eqn:Hs.
    rewrite Hrel in Hmove. cbn [bind] in Hmove.
    right. right.
    exists game, b',
      (if isKingInCheck rules b' (other (turn game)) (isValidMoveWasm rules)
       then Some (other (turn game)) else None).
    split; [reflexivity|]. split; [assumption|]. split; [assumption|].
    split; [destruct (turn game); simpl; assumption|].
    cbv zeta. rewrite Hs. cbn [fst].
    destruct (getGameStatus rules b' (other (turn game)) (isValidMoveWasm rules));
      inversion Hmove; auto.
Qed.

End Frames.

(** ** Induction over reachable states *)

Section ReachableInduction.
Variable rules : RulesOracle.

Lemma reachable_invariant (P : Server -> Prop) :
  P initialServer ->
  (forall e st st' out, P st -> step rules e st = Ret (st', out) -> P st') ->
  forall st, reachable rules st -> P st.
Proof.
  intros Hinit Hstep st (evs & Hc & <-).
  induction evs as [|e evs IH] using rev_ind; [exact Hinit|].
  rewrite run_snoc in Hc |- *. unfold run_event in Hc |- *.
  destruct (crashed (run rules evs)) eqn:Hcr; [congruence|].
  destruct (step rules e (server (run rules evs))) as [[st' out]|] eqn:Hs;
    [|discriminate].
  cbn [server]. eapply Hstep; [apply IH; reflexivity|eassumption].
Qed.

End ReachableInduction.

(** ** The matchmaking queue in reachable states *)

Section QueueInvariant.
Variable rules : RulesOracle.

Lemma in_splice_first sid q s : In s (splice_first sid q) -> In s q.
Proof.
  induction q as [|s0 q IH]; simpl; [tauto|].
  destruct (String.eqb (id s0) sid); simpl; tauto.
Qed.

Lemma in_run_cancel n sid q s : In s (run_cancel n sid q) -> In s q.
Proof.
  revert q; induction n as [|n IH]; intro q; simpl; [tauto|].
  intro H. apply IH in H. eapply in_splice_first; eassumption.
Qed.

Lemma queue_ok_frame st st' :
  matchmakingQueue st' = matchmakingQueue st ->
  cancelListeners st' = cancelListeners st ->
  queue_ok st -> queue_ok st'.
Proof. unfold queue_ok. intros -> ->. tauto. Qed.

Lemma queue_ok_shrink st st' :
  (forall s, In s (matchmakingQueue st') -> In s (matchmakingQueue st)) ->
  (List.length (matchmakingQueue st') <= List.length (matchmakingQueue st))%nat ->
  cancelListeners st' = cancelListeners st ->
  queue_ok st -> queue_ok st'.
Proof.
  unfold queue_ok. intros Hin Hlen -> [Hl Hq]. split; [lia|]. auto.
Qed.

Lemma on_move_queue_frame socket gameId from to n1 n2 st st' out :
  on_move rules socket gameId from to n1 n2 st = Ret (st', out) ->
  matchmakingQueue st' = matchmakingQueue st
  /\ cancelListeners st' = cancelListeners st.
Proof.
  intro H. apply on_move_shape in H.
  destruct H as [->|[(game & _ & _ & ->)|(game & b' & chk & _ & _ & _ & _ & Hst)]].
  - auto.
  - cbn [matchmakingQueue cancelListeners with_games].
    rewrite clearGameTimeout_queue, clearGameTimeout_cancelListeners. auto.
  - cbv zeta in Hst.
    match type of Hst with
    | context [setGameTimeout ?c ?g ?d ?col ?n ?s] =>
        destruct (setGameTimeout_shape c g d col n s) as (Hq & Hc & _)
    end.
    destruct Hst as [->| ->];
      cbn [matchmakingQueue cancelListeners with_games store];
      rewrite Hq, Hc; auto.
Qed.

Lemma queue_ok_step e st st' out :
  step rules e st = Ret (st', out) -> queue_ok st -> queue_ok st'.
Proof.
  revert e st st' out.
  apply (@step_payload_reduce rules (fun _ st st' _ => queue_ok st -> queue_ok st'));
    [|auto|auto].
  intros e st st' out Hsh.
  destruct e as [s p u|s u c n|s|s g n|s g f t n1 n2|s|h n|s p n|s p n1 n2];
    try destruct Hsh; cbn [step]; intros H Hok.
  - assert (Hr : on_create s p u st = (st', out)) by congruence.
    unfold on_create in Hr. destruct (user s); inversion Hr; subst; auto.
  - assert (Hr : on_find s u c n st = (st', out)) by congruence. clear H.
    unfold on_find in Hr. destruct (user s) as [us|] eqn:Hu; [|inversion Hr; subst; auto].
    destruct Hok as [Hl Hq].
    set (st1 := enqueue s (with_cancelListeners st (id s :: cancelListeners st))) in Hr.
    destruct (matchmakingQueue st) as [|s0 [|s1 q]] eqn:Eq; [| |simpl in Hl; lia].
    + rewrite (@pair_single s u c n st1 s) in Hr
        by (subst st1; unfold enqueue; simpl; now rewrite Eq).
      inversion Hr; subst st' out. subst st1. unfold queue_ok, enqueue. simpl.
      rewrite Eq. simpl. split; [lia|].
      intros s' [<-|[]]. split; [congruence|now left].
    + assert (Hq1 : matchmakingQueue st1 = [s0; s])
        by (subst st1; unfold enqueue; simpl; now rewrite Eq).
      destruct (@pair_two_oldest s u c n st1 s0 s [] Hq1) as (Hq' & _).
      destruct (pair s u c n st1) as [st2 out2]. inversion Hr; subst st' out.
      cbn [fst] in Hq'. unfold queue_ok. rewrite Hq'. simpl. split; [lia|tauto].
  - assert (Hr : on_find_cancel s st = (st', out)) by congruence.
    unfold on_find_cancel in Hr. inversion Hr; subst.
    apply (queue_ok_shrink (st := st)); cbn [matchmakingQueue cancelListeners with_queue].
    + intro s0. apply in_run_cancel.
    + apply length_run_cancel.
    + reflexivity.
    + assumption.
  - assert (Hr : on_join s g n st = (st', out)) by congruence. clear H.
    unfold on_join in Hr.
    destruct (user s); [|inversion Hr; subst; auto].
    destruct (JsMap.get (games st) g) as [game|]; [|inversion Hr; subst; auto].
    destruct (players_black game); [inversion Hr; subst; auto|].
    destruct (String.eqb (p_id (players_white game)) (id s)); [inversion Hr; subst; auto|].
    match type of Hr with
    | context [setGameTimeout ?c ?g' ?d ?col ?n' ?s'] =>
        destruct (setGameTimeout_shape c g' d col n' s') as (Hq & Hc & _);
        destruct (setGameTimeout c g' d col n' s') as [st4 out2]
    end.
    inversion Hr; subst st' out. cbn [fst] in Hq, Hc.
    apply (queue_ok_frame (st := st)); [rewrite Hq|rewrite Hc|assumption]; reflexivity.
  - apply on_move_queue_frame in H. destruct H as [Hq Hc].
    now apply (queue_ok_frame (st := st)).
  - assert (Hr : on_disconnect s st = (st', out)) by congruence. clear H.
    unfold on_disconnect in Hr. cbn [games with_queue] in Hr.
    destruct (find_participant (id s) (games st)) as [[gameId game]|];
      inversion Hr; subst st' out;
      apply (queue_ok_shrink (st := st));
      cbn [matchmakingQueue cancelListeners with_games with_queue];
      rewrite ?clearGameTimeout_queue, ?clearGameTimeout_cancelListeners;
      cbn [matchmakingQueue cancelListeners with_queue];
      solve [ intro s0; apply in_splice_first
            | apply length_splice_first
            | reflexivity
            | assumption ].
  - assert (Hr : on_timer h n st = (st', out)) by congruence. clear H.
    unfold on_timer in Hr.
    destruct (JsMap.get (timers st) h) as [tm|]; [|inversion Hr; subst; auto].
    destruct (t_due tm <=? n); [|inversion Hr; subst; auto].
    match type of Hr with
    | handleTimeout ?c ?g ?col ?s' = _ =>
        destruct (handleTimeout_shape c g col s') as (Hq & Hc & _)
    end.
    rewrite Hr in Hq, Hc. cbn [fst] in Hq, Hc.
    now apply (queue_ok_frame (st := st)).
Qed.

(** X4. In every reachable state at most one socket waits in the
    matchmaking queue, and a waiting socket is authenticated and has its
    GAME_FIND_CANCEL listener registered. *)
Theorem reachable_queue_ok st : reachable rules st -> queue_ok st.
Proof.
  apply reachable_invariant.
  - split; [simpl; lia|intros s []].
  - intros e st0 st' out Hok Hs. eapply queue_ok_step; eassumption.
Qed.

End QueueInvariant.

Section CancelFind.
Variable rules : RulesOracle.

Lemma run_cancel_nil n sid : run_cancel n sid [] = [].
Proof. induction n as [|n IH]; simpl; auto. Qed.

Lemma run_cancel_other n sid s0 :
  id s0 <> sid -> run_cancel n sid [s0] = [s0].
Proof.
  intro Hne. induction n as [|n IH]; simpl; [reflexivity|].
  destruct (String.eqb_spec (id s0) sid); [contradiction|exact IH].
Qed.

Lemma with_queue_same st : with_queue st (matchmakingQueue st) = st.
Proof. now destruct st. Qed.

(** X5. In every reachable state GAME_FIND_CANCEL leaves no entry of the
    sending socket in the queue, keeps every other entry, sends nothing
    and touches neither sessions nor timers; from a socket that never
    sent an authenticated GAME_FIND it changes nothing at all. *)
Theorem on_find_cancel_removes socket st :
  reachable rules st ->
  let r := on_find_cancel socket st in
  (forall s, In s (matchmakingQueue (fst r)) <->
             In s (matchmakingQueue st) /\ id s <> id socket)
  /\ snd r = []
  /\ games (fst r) = games st
  /\ timers (fst r) = timers st
  /\ gameTimeouts (fst r) = gameTimeouts st
  /\ (~ In (id socket) (cancelListeners st) -> fst r = st).
Proof.
  intros Hreach r. subst r.
  destruct (@reachable_invariant rules queue_ok) with (st := st) as [Hlen Hq];
    [split; [simpl; lia|intros s []]
    |intros e st0 st' out Hok Hs; eapply queue_ok_step; eassumption
    |exact Hreach|].
  unfold on_find_cancel. cbn [fst snd games timers gameTimeouts matchmakingQueue with_queue].
  split; [|repeat split].
  - destruct (matchmakingQueue st) as [|s0 [|s1 q]] eqn:Eq; [| |simpl in Hlen; lia].
    + rewrite run_cancel_nil. simpl. tauto.
    + destruct (String.eqb_spec (id s0) (id socket)) as [Heq|Hne].
      * destruct (Hq s0 (or_introl eq_refl)) as [_ Hin].
        rewrite Heq in Hin.
        destruct (count_occ string_dec (cancelListeners st) (id socket)) as [|n] eqn:En.
        { apply (count_occ_not_In string_dec) in En. contradiction. }
        simpl. destruct (String.eqb_spec (id s0) (id socket)); [|contradiction].
        rewrite run_cancel_nil.
        intro s. simpl. split; [tauto|]. intros [[<-|[]] Hs]. contradiction.
      * rewrite run_cancel_other by assumption.
        intro s. simpl. split; [|tauto]. intros [<-|[]]. auto.
  - intro Hnot. apply (count_occ_not_In string_dec) in Hnot. rewrite Hnot.
    simpl. apply with_queue_same.
Qed.

End CancelFind.

(** ** Stored sessions in reachable states *)

Section GamesInvariant.
Variable rules : RulesOracle.

Lemma games_all_frame P st st' :
  games st' = games st -> games_all P st -> games_all P st'.
Proof. unfold games_all. now intros ->. Qed.

Lemma games_all_delete P st st' gameId :
  games st' = JsMap.delete (games st) gameId -> games_all P st -> games_all P st'.
Proof.
  unfold games_all. intros -> H k g Hg.
  apply get_delete_some in Hg. destruct Hg as [_ Hg]. eauto.
Qed.

Lemma games_all_set P st st' gameId g :
  games st' = JsMap.set (games st) gameId g -> P g -> games_all P st -> games_all P st'.
Proof.
  unfold games_all. intros -> Hp H k g' Hg.
  destruct (String.eqb_spec gameId k) as [->|Hne].
  - rewrite get_set_same in Hg. congruence.
  - rewrite get_set_other in Hg by assumption. eauto.
Qed.

Lemma games_all_store P st gameId g :
  P g -> games_all P st -> games_all P (store st gameId g).
Proof.
  unfold games_all, store. cbn [games with_games]. intros Hp H k g' Hg.
  destruct (String.eqb_spec gameId k) as [->|Hne].
  - rewrite get_modify_same in Hg. destruct (JsMap.get (games st) k); simpl in Hg; congruence.
  - rewrite get_modify_other in Hg by assumption. eauto.
Qed.

Lemma games_all_setGameTimeout P c gameId d color now st :
  games_all P st -> games_all P (fst (setGameTimeout c gameId d color now st)).
Proof.
  intro H. destruct (setGameTimeout_shape c gameId d color now st) as (_ & _ & _ & [Hg|Hg]).
  - eapply games_all_frame; eassumption.
  - eapply games_all_delete; eassumption.
Qed.

Lemma games_all_handleTimeout P c gameId color st :
  games_all P st -> games_all P (fst (handleTimeout c gameId color st)).
Proof.
  intro H.
  destruct (handleTimeout_shape c gameId color st) as (_ & _ & _ & _ & _ & [Hg|Hg] & _).
  - eapply games_all_frame; eassumption.
  - eapply games_all_delete; eassumption.
Qed.

Lemma charge_players g n :
  players_white (charge g n) = players_white g
  /\ players_black (charge g n) = players_black g.
Proof.
  unfold charge. destruct (truthy_time (lastMoveTime g)); [|auto].
  destruct (turn g); auto.
Qed.

Lemma good_game_charge g n : good_game g -> good_game (charge g n).
Proof.
  unfold good_game. destruct (charge_players g n) as [-> ->]. now rewrite charge_board.
Qed.

Lemma good_game_step e st st' out :
  step rules e st = Ret (st', out) ->
  queue_ok st -> games_all good_game st -> games_all good_game st'.
Proof.
  revert e st st' out.
  apply (@step_payload_reduce rules (fun _ st st' _ =>
           queue_ok st -> games_all good_game st -> games_all good_game st'));
    [|auto|auto].
  intros e st st' out Hsh.
  destruct e as [s p u|s u c n|s|s g n|s g f t n1 n2|s|h n|s p n|s p n1 n2];
    try destruct Hsh; cbn [step]; intros H Hqk Hok.
  - assert (Hr : on_create s p u st = (st', out)) by congruence. clear H.
    unfold on_create in Hr. destruct (user s) as [us|]; inversion Hr; subst; [|assumption].
    eapply games_all_set; [reflexivity| |eassumption].
    repeat split; simpl; congruence.
  - assert (Hr : on_find s u c n st = (st', out)) by congruence. clear H.
    unfold on_find in Hr. destruct (user s) as [us|] eqn:Hu; [|inversion Hr; subst; auto].
    destruct Hqk as [Hl Hq].
    set (st1 := enqueue s (with_cancelListeners st (id s :: cancelListeners st))) in Hr.
    assert (Hok1 : games_all good_game st1) by exact Hok.
    unfold pair in Hr.
    destruct (matchmakingQueue st1) as [|s1 [|s2 q]] eqn:Eq;
      [inversion Hr; subst; assumption|inversion Hr; subst; assumption|].
    assert (Hu1 : user s1 <> None /\ user s2 <> None).
    { subst st1. unfold enqueue in Eq. simpl in Eq.
      destruct (matchmakingQueue st) as [|a [|b q0]] eqn:Eq0; simpl in Eq;
        [discriminate| |simpl in Hl; lia].
      inversion Eq; subst. split; [apply (Hq s1); now left|congruence]. }
    match type of Hr with
    | context [setGameTimeout ?c' ?g' ?d ?col ?n' ?s'] =>
        pose proof (@games_all_setGameTimeout good_game c' g' d col n' s') as Hset;
        destruct (setGameTimeout c' g' d col n' s') as [st5 out2]
    end.
    inversion Hr; subst st' out. cbn [fst] in Hset. apply Hset.
    eapply games_all_frame with (st := store _ u _); [reflexivity|].
    apply games_all_store.
    + destruct Hu1. destruct c; repeat split; simpl; try congruence;
        intros p0 Hp0; inversion Hp0; subst; simpl; assumption.
    + eapply games_all_set; [reflexivity| |exact Hok1].
      destruct Hu1. destruct c; repeat split; simpl; try congruence;
        intros p0 Hp0; inversion Hp0; subst; simpl; assumption.
  - assert (Hr : on_find_cancel s st = (st', out)) by congruence.
    unfold on_find_cancel in Hr. inversion Hr; subst. exact Hok.
  - assert (Hr : on_join s g n st = (st', out)) by congruence. clear H.
    unfold on_join in Hr.
    destruct (user s) as [us|]; [|inversion Hr; subst; auto].
    destruct (JsMap.get (games st) g) as [game|] eqn:Hg; [|inversion Hr; subst; auto].
    destruct (players_black game) eqn:Hb; [inversion Hr; subst; auto|].
    destruct (String.eqb (p_id (players_white game)) (id s)); [inversion Hr; subst; auto|].
    destruct (Hok _ _ Hg) as (Hrows & Hw & _).
    match type of Hr with
    | context [setGameTimeout ?c' ?g' ?d ?col ?n' ?s'] =>
        pose proof (@games_all_setGameTimeout good_game c' g' d col n' s') as Hset;
        destruct (setGameTimeout c' g' d col n' s') as [st4 out2]
    end.
    inversion Hr; subst st' out. cbn [fst] in Hset. apply Hset.
    apply games_all_store.
    + repeat split; simpl; try assumption.
      intros p0 Hp0. inversion Hp0; subst. simpl. congruence.
    + eapply games_all_frame with (st := store st g _); [reflexivity|].
      apply games_all_store; [|assumption].
      repeat split; simpl; try assumption.
      intros p0 Hp0. inversion Hp0; subst. simpl. congruence.
  - apply on_move_shape in H.
    destruct H as [->|[(game & Hg & _ & ->)
                      |(game & b' & chk & Hg & _ & Hrel & _ & Hst)]].
    + assumption.
    + eapply games_all_delete; [reflexivity|].
      eapply games_all_frame; [apply clearGameTimeout_games|].
      apply games_all_store; [|assumption].
      apply good_game_charge. eauto.
    + cbv zeta in Hst.
      assert (Hgood : good_game (set_position (set_lastMoveTime (charge game n1) (Some n2))
                                   b' (other (turn game)) chk)).
      { destruct (good_game_charge n1 (Hok _ _ Hg)) as (Hrows & Hw & Hb).
        repeat split; simpl; try assumption.
        apply relocate_length in Hrel. rewrite Hrel.
        rewrite charge_board in Hrows. exact Hrows. }
      match type of Hst with
      | context [store (fst ?x) ?k ?v] =>
          assert (H3 : games_all good_game (store (fst x) k v))
      end.
      { apply games_all_store; [exact Hgood|].
        apply games_all_setGameTimeout.
        apply games_all_store; [apply (good_game_charge n1 (Hok _ _ Hg))|].
        apply games_all_store; [apply good_game_charge; eauto|assumption]. }
      destruct Hst as [->| ->]; [exact H3|].
      eapply games_all_delete; [reflexivity|exact H3].
  - assert (Hr : on_disconnect s st = (st', out)) by congruence. clear H.
    unfold on_disconnect in Hr. cbn [games with_queue] in Hr.
    destruct (find_participant (id s) (games st)) as [[gameId game]|];
      inversion Hr; subst st' out; [|exact Hok].
    eapply games_all_delete; [reflexivity|].
    eapply games_all_frame; [apply clearGameTimeout_games|exact Hok].
  - assert (Hr : on_timer h n st = (st', out)) by congruence. clear H.
    unfold on_timer in Hr.
    destruct (JsMap.get (timers st) h) as [tm|]; [|inversion Hr; subst; auto].
    destruct (t_due tm <=? n); [|inversion Hr; subst; auto].
    match type of Hr with
    | handleTimeout ?c ?g ?col ?s' = _ =>
        pose proof (@games_all_handleTimeout good_game c g col s') as Hh
    end.
    rewrite Hr in Hh. apply Hh. exact Hok.
Qed.

Lemma reachable_games_queue st :
  reachable rules st -> queue_ok st /\ games_all good_game st.
Proof.
  apply (@reachable_invariant rules (fun s => queue_ok s /\ games_all good_game s)).
  - split; [split; [simpl; lia|intros s []]|intros k g Hg; discriminate].
  - intros e st0 st' out [Hq Hg] Hs. split.
    + eapply queue_ok_step; eassumption.
    + eapply good_game_step; eassumption.
Qed.

End GamesInvariant.

(** ** Pending timers in reachable states *)

Section TimersInvariant.
Variable rules : RulesOracle.

Lemma timers_ok_frame st st' :
  timers st' = timers st ->
  gameTimeouts st' = gameTimeouts st ->
  nextTimer st' = nextTimer st ->
  timers_ok st -> timers_ok st'.
Proof. unfold timers_ok. intros -> -> ->. tauto. Qed.

Lemma no_pending_frame c gameId st st' :
  timers st' = timers st -> no_pending c gameId st -> no_pending c gameId st'.
Proof. unfold no_pending. intros ->. tauto. Qed.

Lemma timers_ok_clear c gameId st :
  timers_ok st ->
  timers_ok (clearGameTimeout c gameId st)
  /\ no_pending c gameId (clearGameTimeout c gameId st).
Proof.
  intro Hok. unfold clearGameTimeout.
  destruct (JsMap.get (gameTimeouts st) (c, gameId)) as [h0|] eqn:E.
  - assert (Hnp : forall h tm,
              JsMap.get (JsMap.delete (timers st) h0) h = Some tm ->
              (t_owner tm, t_game tm) <> (c, gameId)
              /\ JsMap.get (timers st) h = Some tm).
    { intros h tm Hh. apply get_delete_some in Hh. destruct Hh as [Hne Hh].
      split; [|assumption]. intro Heq.
      destruct (Hok _ _ Hh) as [_ He]. rewrite Heq, E in He. congruence. }
    split.
    + intros h tm Hh. cbn [timers gameTimeouts nextTimer with_timers with_gameTimeouts] in *.
      destruct (Hnp _ _ Hh) as [Hne Hh']. destruct (Hok _ _ Hh') as [Hlt He].
      split; [assumption|]. rewrite get_delete_other by congruence. assumption.
    + intros h tm Hh. cbn [timers with_timers with_gameTimeouts] in Hh.
      now destruct (Hnp _ _ Hh).
  - split; [assumption|].
    intros h tm Hh Heq. destruct (Hok _ _ Hh) as [_ He]. rewrite Heq, E in He. discriminate.
Qed.

Lemma timers_ok_handleTimeout c gameId color st :
  timers_ok st -> no_pending c gameId st ->
  timers_ok (fst (handleTimeout c gameId color st)).
Proof.
  intros Hok Hnp.
  destruct (handleTimeout_shape c gameId color st) as (_ & _ & _ & Ht & Hn & _ & [Hg|Hg]).
  - eapply timers_ok_frame; eassumption.
  - intros h tm Hh. rewrite Ht in Hh. rewrite Hn, Hg.
    destruct (Hok _ _ Hh) as [Hlt He]. split; [assumption|].
    rewrite get_delete_other; [assumption|]. intro Heq. apply (Hnp _ _ Hh). congruence.
Qed.

Lemma timers_ok_setGameTimeout c gameId d color now st :
  timers_ok st -> timers_ok (fst (setGameTimeout c gameId d color now st)).
Proof.
  intro Hok. destruct (timers_ok_clear c gameId Hok) as [Hok1 Hnp].
  unfold setGameTimeout. destruct (d <=? 0).
  - now apply timers_ok_handleTimeout.
  - cbn [fst]. set (st1 := clearGameTimeout c gameId st) in *.
    intros h tm Hh.
    cbn [timers gameTimeouts nextTimer with_timers with_gameTimeouts] in *.
    destruct (Nat.eq_dec (nextTimer st1) h) as [<-|Hne].
    + rewrite get_set_same in Hh. inversion Hh; subst tm. simpl.
      split; [lia|apply get_set_same].
    + rewrite get_set_other in Hh by assumption.
      destruct (Hok1 _ _ Hh) as [Hlt He]. split; [lia|].
      rewrite get_set_other; [assumption|]. intro Heq. apply (Hnp _ _ Hh). congruence.
Qed.

Lemma timers_ok_on_timer h now st :
  timers_ok st -> timers_ok (fst (on_timer h now st)).
Proof.
  intro Hok. unfold on_timer.
  destruct (JsMap.get (timers st) h) as [tm|] eqn:E; [|assumption].
  destruct (t_due tm <=? now); [|assumption].
  set (st1 := with_timers st (JsMap.delete (timers st) h) (nextTimer st)).
  assert (Hok1 : timers_ok st1).
  { intros h' tm' Hh. subst st1. cbn [timers gameTimeouts nextTimer with_timers] in *.
    apply get_delete_some in Hh. destruct Hh as [_ Hh]. auto. }
  apply timers_ok_handleTimeout; [assumption|].
  intros h' tm' Hh Heq. subst st1. cbn [timers with_timers] in Hh.
  apply get_delete_some in Hh. destruct Hh as [Hne Hh].
  destruct (Hok _ _ Hh) as [_ He']. destruct (Hok _ _ E) as [_ He].
  inversion Heq as [[Ho Hg]]. rewrite Ho, Hg in He'. congruence.
Qed.

Lemma timers_ok_step e st st' out :
  step rules e st = Ret (st', out) -> timers_ok st -> timers_ok st'.
Proof.
  revert e st st' out.
  apply (@step_payload_reduce rules (fun _ st st' _ => timers_ok st -> timers_ok st'));
    [|auto|auto].
  intros e st st' out Hsh.
  destruct e as [s p u|s u c n|s|s g n|s g f t n1 n2|s|h n|s p n|s p n1 n2];
    try destruct Hsh; cbn [step]; intros H Hok.
  - assert (Hr : on_create s p u st = (st', out)) by congruence.
    unfold on_create in Hr. destruct (user s); inversion Hr; subst; auto.
  - assert (Hr : on_find s u c n st = (st', out)) by congruence. clear H.
    unfold on_find in Hr. destruct (user s); [|inversion Hr; subst; auto].
    unfold pair in Hr.
    destruct (matchmakingQueue _) as [|s1 [|s2 q]];
      [inversion Hr; subst; exact Hok|inversion Hr; subst; exact Hok|].
    match type of Hr with
    | context [setGameTimeout ?c' ?g' ?d ?col ?n' ?s'] =>
        pose proof (@timers_ok_setGameTimeout c' g' d col n' s') as Hset;
        destruct (setGameTimeout c' g' d col n' s') as [st5 out2]
    end.
    inversion Hr; subst st' out. apply Hset. exact Hok.
  - assert (Hr : on_find_cancel s st = (st', out)) by congruence.
    unfold on_find_cancel in Hr. inversion Hr; subst. exact Hok.
  - assert (Hr : on_join s g n st = (st', out)) by congruence. clear H.
    unfold on_join in Hr.
    destruct (user s); [|inversion Hr; subst; auto].
    destruct (JsMap.get (games st) g) as [game|]; [|inversion Hr; subst; auto].
    destruct (players_black game); [inversion Hr; subst; auto|].
    destruct (String.eqb (p_id (players_white game)) (id s)); [inversion Hr; subst; auto|].
    match type of Hr with
    | context [setGameTimeout ?c' ?g' ?d ?col ?n' ?s'] =>
        pose proof (@timers_ok_setGameTimeout c' g' d col n' s') as Hset;
        destruct (setGameTimeout c' g' d col n' s') as [st4 out2]
    end.
    inversion Hr; subst st' out. apply Hset. exact Hok.
  - apply on_move_shape in H.
    destruct H as [->|[(game & _ & _ & ->)|(game & b' & chk & _ & _ & _ & _ & Hst)]].
    + assumption.
    + eapply timers_ok_frame with (st := clearGameTimeout (id s) g (store st g _));
        [reflexivity|reflexivity|reflexivity|].
      apply timers_ok_clear. exact Hok.
    + cbv zeta in Hst.
      match type of Hst with
      | context [setGameTimeout ?c' ?g' ?d ?col ?n' ?s'] =>
          pose proof (@timers_ok_setGameTimeout c' g' d col n' s') as Hset
      end.
      destruct Hst as [->| ->]; apply Hset; exact Hok.
  - assert (Hr : on_disconnect s st = (st', out)) by congruence. clear H.
    unfold on_disconnect in Hr. cbn [games with_queue] in Hr.
    destruct (find_participant (id s) (games st)) as [[gameId game]|];
      inversion Hr; subst st' out; [|exact Hok].
    eapply timers_ok_frame
      with (st := clearGameTimeout (id s) gameId
                    (with_queue st (splice_first (id s) (matchmakingQueue st))));
      [reflexivity|reflexivity|reflexivity|].
    apply timers_ok_clear. exact Hok.
  - assert (Hr : on_timer h n st = (st', out)) by congruence.
    pose proof (@timers_ok_on_timer h n st Hok) as Ht. now rewrite Hr in Ht.
Qed.

(** X6. In every reachable state each pending timer carries a handle
    that the runtime has handed out and is the handle that its own
    closure holds for its session; so one closure never has two timers
    pending for one session. *)
Theorem reachable_timers_ok st :
  reachable rules st ->
  timers_ok st
  /\ forall h1 h2 tm1 tm2,
       JsMap.get (timers st) h1 = Some tm1 ->
       JsMap.get (timers st) h2 = Some tm2 ->
       t_owner tm1 = t_owner tm2 -> t_game tm1 = t_game tm2 ->
       h1 = h2.
Proof.
  intro Hreach.
  assert (Hok : timers_ok st).
  { revert st Hreach. apply reachable_invariant.
    - intros h tm Hh. discriminate.
    - intros e st0 st' out Hok Hs. eapply timers_ok_step; eassumption. }
  split; [exact Hok|].
  intros h1 h2 tm1 tm2 H1 H2 Ho Hg.
  destruct (Hok _ _ H1) as [_ E1]. destruct (Hok _ _ H2) as [_ E2].
  rewrite Ho, Hg in E1. congruence.
Qed.

End TimersInvariant.

(** ** Consequences for finished sessions and for thrown moves *)

Section ReachableConsequences.
Variable rules : RulesOracle.

(** X7. In every reachable state both participants of a stored session
    are authenticated users.  So when such a session ends it is written
    to the database exactly when it has a black participant, and only
    logged as not saved when black never joined. *)
Theorem reachable_saveGame st gameId g status :
  reachable rules st ->
  JsMap.get (games st) gameId = Some g ->
  (players_black g = None -> saveGame gameId g status = [LogNotSaved gameId])
  /\ (forall p, players_black g = Some p ->
        exists w b,
          p_user (players_white g) = Some w /\ p_user p = Some b
          /\ saveGame gameId g status = [DbSave gameId w b status]).
Proof.
  intros Hreach Hg.
  destruct (@reachable_games_queue rules st Hreach) as [_ Hall].
  destruct (Hall _ _ Hg) as (_ & Hw & Hb).
  unfold saveGame.
  destruct (p_user (players_white g)) as [w|] eqn:Ew; [|congruence].
  split.
  - intros ->. reflexivity.
  - intros p Hp. specialize (Hb p Hp). rewrite Hp.
    destruct p as [pid [b|]]; simpl in *; [|congruence].
    exists w, b. auto.
Qed.

Lemma relocate_throws b from to :
  relocate b from to = TypeError
  <-> (List.length b <= fst from)%nat \/ (List.length b <= fst to)%nat.
Proof.
  destruct from as [fr fc], to as [tr tc]. unfold relocate. simpl.
  destruct (nth_error b tr) as [rowt|] eqn:Et.
  - destruct (nth_error b fr) as [rowf|] eqn:Ef.
    + assert (Hf : (fr < List.length b)%nat) by (apply nth_error_Some; congruence).
      assert (Ht : (tr < List.length b)%nat) by (apply nth_error_Some; congruence).
      destruct (nth_error (js_set [] b tr (js_set Undef rowt tc (js_get Undef rowf fc))) fr)
        as [rowf'|] eqn:E.
      * split; [discriminate|lia].
      * apply nth_error_None in E. rewrite js_set_length in E. lia.
    + apply nth_error_None in Ef. tauto.
  - apply nth_error_None in Et. tauto.
Qed.

Lemma playerSocketId_throws g :
  playerSocketId g = TypeError <-> turn g = black /\ players_black g = None.
Proof.
  unfold playerSocketId. destruct (turn g).
  - split; [discriminate|intros [? _]; discriminate].
  - destruct (players_black g); split; try discriminate; try tauto.
    intros [_ ?]; discriminate.
Qed.

Lemma on_move_throws socket gameId game from to n1 n2 st :
  JsMap.get (games st) gameId = Some game ->
  (on_move rules socket gameId from to n1 n2 st = TypeError
   <-> playerSocketId game = TypeError
       \/ (playerSocketId game = Ret (id socket)
           /\ isValidMoveWasm rules (board game) from to (turn game) = TypeError)).
Proof.
  intro Hg. unfold on_move. rewrite Hg.
  destruct (playerSocketId game) as [psid|]; cbn [bind]; [|tauto].
  destruct (String.eqb_spec (id socket) psid) as [<-|Hne]; cbn [negb].
  2:{ split; [discriminate|]. intros [?|[Heq _]]; [discriminate|]. congruence. }
  destruct (isValidMoveWasm rules (board game) from to (turn game)) as [[|]|] eqn:Hv;
    cbn [bind].
  - split; [|intros [?|[_ ?]]; discriminate].
    destruct ((whiteTime (charge game n1) <=? 0) || (blackTime (charge game n1) <=? 0));
      [discriminate|].
    destruct (setGameTimeout _ _ _ _ _ _) as [st2 out1].
    destruct (@isValidMoveWasm_relocate rules _ _ _ _ _ Hv) as [b' ->]. cbn [bind].
    destruct (getGameStatus rules b' _ _); discriminate.
  - split; [discriminate|intros [?|[_ ?]]; discriminate].
  - tauto.
Qed.

(** For a payload with a string [gameId] and two squares of
    non-negative integers, in a reachable state: the handler throws
    when black is to move and absent, or when the side to move names a
    row index of 8 or more, and not otherwise. *)
Lemma on_move_throws_rows socket gameId from to n1 n2 st :
  reachable rules st ->
  (on_move rules socket gameId from to n1 n2 st = TypeError
   <-> exists game,
         JsMap.get (games st) gameId = Some game
         /\ ((turn game = black /\ players_black game = None)
             \/ (playerSocketId game = Ret (id socket)
                 /\ ((8 <= fst from)%nat \/ (8 <= fst to)%nat)))).
Proof.
  intro Hreach.
  destruct (@reachable_games_queue rules st Hreach) as [_ Hall].
  destruct (JsMap.get (games st) gameId) as [game|] eqn:Hg.
  2:{ rewrite on_move_unknown by assumption.
      split; [discriminate|intros (g & Hg' & _); discriminate]. }
  destruct (Hall _ _ Hg) as (Hrows & _).
  assert (Hv : isValidMoveWasm rules (board game) from to (turn game) = TypeError
               <-> (8 <= fst from)%nat \/ (8 <= fst to)%nat).
  { unfold isValidMoveWasm, writeBoardToPtr.
    rewrite board_codes_ok by (intros r Hin; apply in_seq in Hin; lia).
    cbn [bind]. rewrite <- Hrows, <- relocate_throws.
    destruct (relocate (board game) from to); cbn [bind];
      split; intro; congruence. }
  rewrite (@on_move_throws socket gameId game from to n1 n2 st Hg),
    playerSocketId_throws, Hv.
  split.
  - intro H. exists game. split; [reflexivity|exact H].
  - intros (g & Heq & H). inversion Heq; subst g. exact H.
Qed.

(** X8. In every reachable state, and for every payload that is
    missing, or carries any [gameId] and squares that are not iterable,
    have no row, or are two non-negative integers: GAME_MOVE throws
    exactly when the payload is missing, or names a stored session in
    which black is to move and absent (whoever sends the move), or names
    a stored session whose side to move is the sender and a square that
    is off the board (not iterable, without a row, or with a row index
    of 8 or more).  In every other case it returns. *)
Theorem on_move_payload_throws_iff socket payload n1 n2 st :
  reachable rules st ->
  (on_move_payload rules socket payload n1 n2 st = TypeError
   <-> payload = NoMovePayload
       \/ exists gameId from to game,
            payload = MoveOf (Key gameId) from to
            /\ JsMap.get (games st) gameId = Some game
            /\ ((turn game = black /\ players_black game = None)
                \/ (playerSocketId game = Ret (id socket)
                    /\ (off_board from \/ off_board to)))).
Proof.
  intro Hreach.
  assert (Hbad : forall gameId from to,
            off_board from \/ off_board to ->
            (match JsMap.get (games st) gameId with
             | None => Ret (st, [])
             | Some game =>
                 psid <- playerSocketId game ;;
                 if negb (String.eqb (id socket) psid)
                 then Ret (st, [Emit (id socket) (GAME_ERROR "It's not your turn.")])
                 else TypeError
             end = TypeError
             <-> MoveOf (Key gameId) from to = NoMovePayload
                 \/ exists g f t game,
                      MoveOf (Key gameId) from to = MoveOf (Key g) f t
                      /\ JsMap.get (games st) g = Some game
                      /\ ((turn game = black /\ players_black game = None)
                          \/ (playerSocketId game = Ret (id socket)
                              /\ (off_board f \/ off_board t))))).
  { intros gameId from to Hoff. split.
    - intro H. right. exists gameId, from, to.
      destruct (JsMap.get (games st) gameId) as [game|]; [|discriminate].
      exists game. split; [reflexivity|]. split; [reflexivity|].
      destruct (playerSocketId game) as [psid|] eqn:Hp; cbn [bind] in H.
      + destruct (String.eqb_spec (id socket) psid) as [<-|_]; [|discriminate].
        right. split; [reflexivity|exact Hoff].
      + left. now apply playerSocketId_throws.
    - intros [H|(g & f & t & game & Heq & Hg & H)]; [discriminate|].
      inversion Heq; subst g f t. rewrite Hg.
      destruct H as [H|[Hp _]].
      + apply playerSocketId_throws in H. now rewrite H.
      + rewrite Hp. cbn [bind]. now rewrite String.eqb_refl. }
  destruct payload as [|[|gameId] from to].
  - cbn [on_move_payload]. split; [now left|reflexivity].
  - cbn [on_move_payload]. split; [discriminate|].
    intros [H|(g & f & t & game & Heq & _)]; discriminate.
  - destruct from as [| |from];
      [apply Hbad; left; exact I|apply Hbad; left; exact I|].
    destruct to as [| |to];
      [apply Hbad; right; exact I|apply Hbad; right; exact I|].
    cbn [on_move_payload].
    rewrite (@on_move_throws_rows socket gameId from to n1 n2 st Hreach).
    split.
    + intros (game & Hg & H). right. exists gameId, (Square from), (Square to), game.
      split; [reflexivity|]. split; [exact Hg|exact H].
    + intros [H|(g & f & t & game & Heq & Hg & H)]; [discriminate|].
      inversion Heq; subst g f t. exists game. split; [exact Hg|exact H].
Qed.

End ReachableConsequences.

(** ** Refusals of GAME_JOIN and unauthenticated connections *)

Section Refusals.

Lemma saveGame_no_emit gameId g status a m :
  ~ In (Emit a m) (saveGame gameId g status).
Proof.
  unfold saveGame.
  destruct (p_user (players_white g)); [|intros [?|[]]; discriminate].
  destruct (players_black g) as [[? [?|]]|]; intros [?|[]]; discriminate.
Qed.

Lemma setGameTimeout_no_emit c gameId d color now st a m :
  ~ In (Emit a m) (snd (setGameTimeout c gameId d color now st)).
Proof.
  unfold setGameTimeout. destruct (d <=? 0); [|intros []].
  unfold handleTimeout. destruct (JsMap.get _ gameId); [|intros []].
  cbn [snd]. intros [?|H]; [discriminate|]. now apply saveGame_no_emit in H.
Qed.

(** For a payload with a string [gameId]: an error is the only output
    and leaves the state alone, and its message tells which guard
    refused. *)
Lemma on_join_guards socket gameId now st :
  let r := on_join socket gameId now st in
  (forall m,
     In (Emit (id socket) (GAME_ERROR m)) (snd r) ->
     r = (st, [Emit (id socket) (GAME_ERROR m)])
     /\ ((m = "Authentication required." /\ user socket = None)
         \/ (m = "Game not found." /\ user socket <> None
             /\ JsMap.get (games st) gameId = None)
         \/ (m = "Game is full." /\ user socket <> None
             /\ exists g p, JsMap.get (games st) gameId = Some g
                            /\ players_black g = Some p)
         \/ (m = "You have already joined." /\ user socket <> None
             /\ exists g, JsMap.get (games st) gameId = Some g
                          /\ players_black g = None
                          /\ p_id (players_white g) = id socket)))
  /\ ((forall m, ~ In (Emit (id socket) (GAME_ERROR m)) (snd r)) ->
      exists u g,
        user socket = Some u
        /\ JsMap.get (games st) gameId = Some g
        /\ players_black g = None
        /\ p_id (players_white g) <> id socket).
Proof.
  intro r. subst r. unfold on_join.
  destruct (user socket) as [u|] eqn:Hu.
  2:{ split.
      - intros m [Hm|[]]. inversion Hm; subst. split; [reflexivity|]. auto.
      - intro H. exfalso. apply (H "Authentication required."). now left. }
  destruct (JsMap.get (games st) gameId) as [game|] eqn:Hg.
  2:{ split.
      - intros m [Hm|[]]. inversion Hm; subst. split; [reflexivity|].
        right. left. repeat split; congruence.
      - intro H. exfalso. apply (H "Game not found."). now left. }
  destruct (players_black game) as [p|] eqn:Hb.
  { split.
    - intros m [Hm|[]]. inversion Hm; subst. split; [reflexivity|].
      right. right. left. repeat split; try congruence. eauto.
    - intro H. exfalso. apply (H "Game is full."). now left. }
  destruct (String.eqb_spec (p_id (players_white game)) (id socket)) as [Heq|Hne].
  { split.
    - intros m [Hm|[]]. inversion Hm; subst. split; [reflexivity|].
      right. right. right. repeat split; try congruence. eauto.
    - intro H. exfalso. apply (H "You have already joined."). now left. }
  match goal with
  | |- context [setGameTimeout ?c ?g ?d ?col ?n ?s] =>
      pose proof (fun a m => @setGameTimeout_no_emit c g d col n s a m) as Hno;
      destruct (setGameTimeout c g d col n s) as [st4 out2]
  end.
  cbn [snd fst] in *. split.
  - intros m [Hm|[Hm|Hm]]; [discriminate|discriminate|]. now apply Hno in Hm.
  - intros _. exists u, game. auto.
Qed.

(** X9. GAME_JOIN throws exactly when it is sent without a payload.
    Whenever it returns and has answered with an error, that error is
    its only output and the server state is unchanged; the message tells
    which guard refused, in the order authentication, unknown session
    (also a [gameId] that is not a string), full session, own session.
    A join that returns without an error named a stored session and
    passed all four guards. *)
Theorem on_join_payload_refusals socket payload now st :
  (on_join_payload socket payload now st = TypeError <-> payload = NoJoinPayload)
  /\ forall st' out,
       on_join_payload socket payload now st = Ret (st', out) ->
       (forall m,
          In (Emit (id socket) (GAME_ERROR m)) out ->
          st' = st /\ out = [Emit (id socket) (GAME_ERROR m)]
          /\ ((m = "Authentication required." /\ user socket = None)
              \/ (m = "Game not found." /\ user socket <> None
                  /\ (payload = JoinOf NoKey
                      \/ exists gameId, payload = JoinOf (Key gameId)
                                        /\ JsMap.get (games st) gameId = None))
              \/ (m = "Game is full." /\ user socket <> None
                  /\ exists gameId g p, payload = JoinOf (Key gameId)
                                        /\ JsMap.get (games st) gameId = Some g
                                        /\ players_black g = Some p)
              \/ (m = "You have already joined." /\ user socket <> None
                  /\ exists gameId g, payload = JoinOf (Key gameId)
                                      /\ JsMap.get (games st) gameId = Some g
                                      /\ players_black g = None
                                      /\ p_id (players_white g) = id socket)))
       /\ ((forall m, ~ In (Emit (id socket) (GAME_ERROR m)) out) ->
           exists gameId u g,
             payload = JoinOf (Key gameId)
             /\ user socket = Some u
             /\ JsMap.get (games st) gameId = Some g
             /\ players_black g = None
             /\ p_id (players_white g) <> id socket).
Proof.
  destruct payload as [|[|gameId]]; cbn [on_join_payload].
  - split; [tauto|]. discriminate.
  - split; [split; [destruct (user socket); discriminate|discriminate]|].
    intros st' out H.
    destruct (user socket) as [u|] eqn:Hu; inversion H; subst st' out; split.
    + intros m [Hm|[]]. inversion Hm; subst m. repeat split.
      right. left. repeat split; [congruence|now left].
    + intro Hno. exfalso. apply (Hno "Game not found."). now left.
    + intros m [Hm|[]]. inversion Hm; subst m. repeat split. now left.
    + intro Hno. exfalso. apply (Hno "Authentication required."). now left.
  - split; [split; discriminate|]. intros st' out H.
    destruct (on_join_guards socket gameId now st) as [Herr Hok].
    assert (Hr : on_join socket gameId now st = (st', out)) by congruence.
    rewrite Hr in Herr, Hok. cbn [fst snd] in Herr, Hok. split.
    + intros m Hm. destruct (Herr m Hm) as [Heq Hwhich].
      inversion Heq; subst st' out. split; [reflexivity|]. split; [reflexivity|].
      destruct Hwhich as [(-> & Hu)|[(-> & Hu & Hg)|[(-> & Hu & g & p & Hg & Hb)
                                                    |(-> & Hu & g & Hg & Hb & Hw)]]].
      * now left.
      * right. left. repeat split; [exact Hu|]. right. exists gameId. auto.
      * right. right. left. repeat split; [exact Hu|]. exists gameId, g, p. auto.
      * right. right. right. repeat split; [exact Hu|]. exists gameId, g. auto.
    + intro Hno. destruct (Hok Hno) as (u & g & Hu & Hg & Hb & Hw).
      exists gameId, u, g. auto.
Qed.


End Refusals.

(** ** Timer callbacks and the timeout handler *)

Section TimerCallbacks.

Lemma handleTimeout_gone c gameId color st :
  JsMap.get (games (fst (handleTimeout c gameId color st))) gameId = None.
Proof.
  unfold handleTimeout. destruct (JsMap.get (games st) gameId) eqn:E; [|exact E].
  cbn [fst games with_games with_gameTimeouts]. apply get_delete_same.
Qed.

(** X11. Ending a session on time is one-shot: after [handleTimeout]
    has run for a session, whether or not the session was still stored,
    the session is not in the store, and any further [handleTimeout] or
    expired [setGameTimeout] for it, from any closure and for any side,
    sends nothing and leaves the store as it is. *)
Theorem handleTimeout_once c gameId color st :
  let st1 := fst (handleTimeout c gameId color st) in
  JsMap.get (games st1) gameId = None
  /\ (forall c' color', handleTimeout c' gameId color' st1 = (st1, []))
  /\ forall c' color' d now,
       d <= 0 ->
       snd (setGameTimeout c' gameId d color' now st1) = []
       /\ games (fst (setGameTimeout c' gameId d color' now st1)) = games st1.
Proof.
  intro st1. pose proof (handleTimeout_gone c gameId color st) as Hgone.
  fold st1 in Hgone. split; [exact Hgone|]. split.
  - intros c' color'. now apply handleTimeout_evicted.
  - intros c' color' d now Hd. rewrite setGameTimeout_expired by assumption.
    rewrite handleTimeout_evicted by (now rewrite clearGameTimeout_games).
    cbn [fst snd]. split; [reflexivity|apply clearGameTimeout_games].
Qed.

End TimerCallbacks.

(** ** Clocks after an accepted move *)

Section Clocks.
Variable rules : RulesOracle.


End Clocks.


(** ** Participants of a stored session *)

Section Participants.
Variable rules : RulesOracle.

Lemma same_seats_refl g : same_seats g g.
Proof. repeat split; auto. Qed.

Lemma evolves_start gameId g st :
  JsMap.get (games st) gameId = Some g -> evolves gameId g st.
Proof. intros Hg g' Hg'. rewrite Hg in Hg'. inversion Hg'. apply same_seats_refl. Qed.

Lemma evolves_frame gameId g st st' :
  games st' = games st -> evolves gameId g st -> evolves gameId g st'.
Proof. unfold evolves. now intros ->. Qed.

Lemma evolves_delete gameId g st st' k :
  games st' = JsMap.delete (games st) k -> evolves gameId g st -> evolves gameId g st'.
Proof.
  unfold evolves. intros -> H g' Hg'. apply get_delete_some in Hg'. apply H. tauto.
Qed.

Lemma evolves_set gameId g st st' k v :
  games st' = JsMap.set (games st) k v -> k <> gameId ->
  evolves gameId g st -> evolves gameId g st'.
Proof.
  unfold evolves. intros -> Hne H g' Hg'. rewrite get_set_other in Hg' by assumption. auto.
Qed.

Lemma evolves_store gameId g st k v :
  (k = gameId -> same_seats g v) ->
  evolves gameId g st -> evolves gameId g (store st k v).
Proof.
  unfold evolves, store. cbn [games with_games]. intros Hv H g' Hg'.
  destruct (String.eqb_spec k gameId) as [->|Hne].
  - rewrite get_modify_same in Hg'.
    destruct (JsMap.get (games st) gameId); simpl in Hg'; [|discriminate].
    inversion Hg'; subst. auto.
  - rewrite get_modify_other in Hg' by assumption. auto.
Qed.

Lemma evolves_setGameTimeout gameId g c k d color now st :
  evolves gameId g st -> evolves gameId g (fst (setGameTimeout c k d color now st)).
Proof.
  intro H. destruct (setGameTimeout_shape c k d color now st) as (_ & _ & _ & [Hg|Hg]).
  - eapply evolves_frame; eassumption.
  - eapply evolves_delete; eassumption.
Qed.

Lemma evolves_handleTimeout gameId g c k color st :
  evolves gameId g st -> evolves gameId g (fst (handleTimeout c k color st)).
Proof.
  intro H.
  destruct (handleTimeout_shape c k color st) as (_ & _ & _ & _ & _ & [Hg|Hg] & _).
  - eapply evolves_frame; eassumption.
  - eapply evolves_delete; eassumption.
Qed.

Lemma same_seats_charge g n : same_seats g (charge g n).
Proof.
  destruct (charge_players g n) as [Hw Hb]. unfold same_seats.
  rewrite Hw, Hb. repeat split; auto.
  unfold charge. destruct (truthy_time (lastMoveTime g)); [|reflexivity].
  destruct (turn g); reflexivity.
Qed.

(** X14. No event reassigns a seat: a session that an event keeps in
    the store under an identifier the event did not generate has the same
    white participant, the same black participant if it had one, and the
    same time control as before; and an identifier that was not in the
    store is not in it afterwards unless the event generated it. *)
Theorem step_keeps_seats e st st' out gameId :
  step rules e st = Ret (st', out) ->
  ~ In gameId (generated_ids [e]) ->
  (forall g g',
     JsMap.get (games st) gameId = Some g ->
     JsMap.get (games st') gameId = Some g' ->
     players_white g' = players_white g
     /\ (forall p, players_black g = Some p -> players_black g' = Some p)
     /\ timeControl g' = timeControl g)
  /\ (JsMap.get (games st) gameId = None -> JsMap.get (games st') gameId = None).
Proof.
  intros Hs Hfresh. split.
  2:{ intro Hnone. destruct (@step_effect rules e st st' out Hs) as [He _].
      destruct (JsMap.get (games st') gameId) as [g'|] eqn:Hg'; [|reflexivity].
      apply get_in_keys in Hg'.
      destruct (store_effect_keys _ He Hg') as [Hin|Hin]; [|contradiction].
      apply in_keys_get in Hin. destruct Hin as [v Hv]. congruence. }
  intros g g' Hg Hg'.
  cut (evolves gameId g st'); [intro H; exact (H g' Hg')|]. clear g' Hg'.
  pose proof (@evolves_start gameId g st Hg) as H0.
  revert e st st' out Hs Hfresh Hg H0.
  apply (@step_payload_reduce rules (fun ids st st' _ =>
           ~ In gameId ids -> JsMap.get (games st) gameId = Some g ->
           evolves gameId g st -> evolves gameId g st')); [|auto|auto].
  intros e st st' out Hsh Hs Hfresh Hg H0.
  destruct e as [s p u|s u c n|s|s k n|s k f t n1 n2|s|h n|s p n|s p n1 n2];
    try destruct Hsh; cbn [step] in Hs.
  - assert (Hr : on_create s p u st = (st', out)) by congruence. clear Hs.
    unfold on_create in Hr. destruct (user s); inversion Hr; subst; [|assumption].
    eapply evolves_set; [reflexivity| |exact H0].
    intro Heq. apply Hfresh. simpl. auto.
  - assert (Hr : on_find s u c n st = (st', out)) by congruence. clear Hs.
    unfold on_find in Hr. destruct (user s); [|inversion Hr; subst; assumption].
    unfold pair in Hr.
    destruct (matchmakingQueue _) as [|s1 [|s2 q]];
      [inversion Hr; subst; exact H0|inversion Hr; subst; exact H0|].
    assert (Hne : u <> gameId) by (intro Heq; apply Hfresh; simpl; auto).
    match type of Hr with
    | context [setGameTimeout ?c' ?g' ?d ?col ?n' ?s'] =>
        pose proof (@evolves_setGameTimeout gameId g c' g' d col n' s') as Hset;
        destruct (setGameTimeout c' g' d col n' s') as [st5 out2]
    end.
    inversion Hr; subst st' out. apply Hset.
    eapply evolves_frame with (st := store _ u _); [reflexivity|].
    apply evolves_store; [intro; contradiction|].
    eapply evolves_set; [reflexivity|exact Hne|exact H0].
  - assert (Hr : on_find_cancel s st = (st', out)) by congruence.
    unfold on_find_cancel in Hr. inversion Hr; subst. exact H0.
  - assert (Hr : on_join s k n st = (st', out)) by congruence. clear Hs.
    unfold on_join in Hr.
    destruct (user s) as [us|]; [|inversion Hr; subst; assumption].
    destruct (JsMap.get (games st) k) as [game|] eqn:Hk; [|inversion Hr; subst; assumption].
    destruct (players_black game) eqn:Hb; [inversion Hr; subst; assumption|].
    destruct (String.eqb (p_id (players_white game)) (id s));
      [inversion Hr; subst; assumption|].
    assert (Hseat : k = gameId ->
              same_seats g (set_black game (Some {| p_id := id s; p_user := Some us |}))).
    { intros ->. rewrite Hg in Hk. inversion Hk; subst game.
      repeat split; simpl; auto. intros p Hp. congruence. }
    match type of Hr with
    | context [setGameTimeout ?c' ?g' ?d ?col ?n' ?s'] =>
        pose proof (@evolves_setGameTimeout gameId g c' g' d col n' s') as Hset;
        destruct (setGameTimeout c' g' d col n' s') as [st4 out2]
    end.
    inversion Hr; subst st' out. apply Hset.
    apply evolves_store; [exact Hseat|].
    eapply evolves_frame with (st := store st k _); [reflexivity|].
    apply evolves_store; [exact Hseat|exact H0].
  - apply on_move_shape in Hs.
    destruct Hs as [->|[(game & Hk & _ & ->)
                       |(game & b' & chk & Hk & _ & _ & _ & Hst)]].
    + assumption.
    + eapply evolves_delete; [reflexivity|].
      eapply evolves_frame; [apply clearGameTimeout_games|].
      apply evolves_store; [|exact H0].
      intros ->. rewrite Hg in Hk. inversion Hk; subst game. apply same_seats_charge.
    + cbv zeta in Hst.
      assert (Hseat : k = gameId -> same_seats g (charge game n1)).
      { intros ->. rewrite Hg in Hk. inversion Hk; subst game. apply same_seats_charge. }
      match type of Hst with
      | context [store (fst ?x) ?k' ?v] =>
          assert (H3 : evolves gameId g (store (fst x) k' v))
      end.
      { apply evolves_store; [exact Hseat|].
        apply evolves_setGameTimeout.
        apply evolves_store; [exact Hseat|].
        apply evolves_store; [exact Hseat|exact H0]. }
      destruct Hst as [->| ->]; [exact H3|].
      eapply evolves_delete; [reflexivity|exact H3].
  - assert (Hr : on_disconnect s st = (st', out)) by congruence. clear Hs.
    unfold on_disconnect in Hr. cbn [games with_queue] in Hr.
    destruct (find_participant (id s) (games st)) as [[k game]|];
      inversion Hr; subst st' out; [|exact H0].
    eapply evolves_delete; [reflexivity|].
    eapply evolves_frame; [apply clearGameTimeout_games|exact H0].
  - assert (Hr : on_timer h n st = (st', out)) by congruence. clear Hs.
    unfold on_timer in Hr.
    destruct (JsMap.get (timers st) h) as [tm|]; [|inversion Hr; subst; assumption].
    destruct (t_due tm <=? n); [|inversion Hr; subst; assumption].
    match type of Hr with
    | handleTimeout ?c ?g0 ?col ?s' = _ =>
        pose proof (@evolves_handleTimeout gameId g c g0 col s') as Hh
    end.
    rewrite Hr in Hh. apply Hh. exact H0.
Qed.

End Participants.

(** ** Disconnects of strangers, and sessions created without time *)

Section EdgeCases.
Variable rules : RulesOracle.

Lemma splice_first_absent sid q :
  (forall s, In s q -> id s <> sid) -> splice_first sid q = q.
Proof.
  induction q as [|s q IH]; intro H; simpl; [reflexivity|].
  destruct (String.eqb_spec (id s) sid) as [Heq|_].
  - exfalso. apply (H s); [now left|assumption].
  - rewrite IH; [reflexivity|]. intros s' Hs'. apply H. now right.
Qed.

Lemma find_participant_absent sid m :
  (forall k g, In (k, g) m -> is_participant sid g = false) ->
  find_participant sid m = None.
Proof.
  induction m as [|[k g] m IH]; intro H; simpl; [reflexivity|].
  rewrite (H k g) by now left. apply IH. intros k' g' Hin. apply (H k' g'). now right.
Qed.

(** X15. The disconnect of a socket that neither waits in the queue nor
    takes part in any stored session sends nothing and leaves the whole
    server state as it is. *)
Theorem on_disconnect_stranger socket st :
  (forall s, In s (matchmakingQueue st) -> id s <> id socket) ->
  (forall k g, In (k, g) (games st) -> is_participant (id socket) g = false) ->
  on_disconnect socket st = (st, []).
Proof.
  intros Hq Hg. unfold on_disconnect.
  rewrite splice_first_absent by assumption. rewrite with_queue_same.
  now rewrite find_participant_absent.
Qed.


End EdgeCases.

(** ** The client module *)

Section Client.


(** X18. A rejected login or registration stores nothing, opens
    nothing and only shows the error.  A reply stores the token, then
    connects with the stored token and navigates to the dashboard; when
    the reply has no token the stored and sent token is the text
    "undefined", and when the token is the empty string no socket is
    opened although the page still navigates. *)
Theorem handleSubmit_cases reply b :
  let r := handleSubmit reply b in
  (forall message, reply = Rejected message ->
     r = (b, [SetError message]))
  /\ (forall token, reply = Replied (Some token) -> token <> "" ->
        storedToken (fst r) = Some token
        /\ exists closing,
             snd r = closing ++ [Open (or_else (serverUrl b) "http://localhost:4000") token;
                                 Navigate "/dashboard"]
             /\ forall e, In e closing -> exists old, e = Disconnect old
                                                     /\ current b = Some old)
  /\ (reply = Replied None ->
        storedToken (fst r) = Some "undefined"
        /\ In (Open (or_else (serverUrl b) "http://localhost:4000") "undefined") (snd r))
  /\ (reply = Replied (Some "") ->
        snd r = [Warn "No token found in localStorage"; Navigate "/dashboard"]
        /\ current (fst r) = current b
        /\ storedToken (fst r) = Some "").
Proof.
  intro r. subst r. split; [|split; [|split]].
  - intros message ->. reflexivity.
  - intros token -> Hne. unfold handleSubmit, connectSocket, setItem_token.
    cbn [storedToken serverUrl current].
    destruct token as [|a t]; [congruence|]. cbn [fst snd].
    split; [reflexivity|].
    exists (match current b with
            | Some s => if c_connected s then [Disconnect s] else []
            | None => []
            end).
    split; [now rewrite <- app_assoc|].
    intros e He. destruct (current b) as [old|]; [|destruct He].
    destruct (c_connected old); [|destruct He].
    destruct He as [<-|[]]. eauto.
  - intros ->. unfold handleSubmit, connectSocket, setItem_token.
    cbn [storedToken serverUrl current fst snd].
    split; [reflexivity|]. apply in_or_app. left. apply in_or_app. right. now left.
  - intros ->. unfold handleSubmit, connectSocket, setItem_token.
    cbn [storedToken serverUrl current fst snd]. auto.
Qed.

End Client.

(** ** Concrete instances *)

(** Alice waits alone in the queue. *)
Lemma reachable_queue_ok_witness :
  let st := server (run Demo.pawnRules [EvFind Demo.alice "g0" true 5000]) in
  reachable Demo.pawnRules st /\ queue_ok st /\ matchmakingQueue st = [Demo.alice].
Proof.
  intro st.
  assert (Hr : reachable Demo.pawnRules st).
  { exists [EvFind Demo.alice "g0" true 5000]. split; reflexivity. }
  split; [exact Hr|]. split; [|reflexivity].
  exact (@reachable_queue_ok Demo.pawnRules st Hr).
Defined.

(** Alice cancels her search. *)
Lemma on_find_cancel_removes_witness :
  let st := server (run Demo.pawnRules [EvFind Demo.alice "g0" true 5000]) in
  reachable Demo.pawnRules st
  /\ matchmakingQueue st = [Demo.alice]
  /\ forall s, In s (matchmakingQueue (fst (on_find_cancel Demo.alice st))) ->
               id s <> "sockA".
Proof.
  intro st.
  assert (Hr : reachable Demo.pawnRules st).
  { exists [EvFind Demo.alice "g0" true 5000]. split; reflexivity. }
  split; [exact Hr|]. split; [reflexivity|].
  destruct (@on_find_cancel_removes Demo.pawnRules Demo.alice st Hr) as (Hq & _).
  intros s Hs. apply Hq in Hs. exact (proj2 Hs).
Defined.

(** After alice's first move two closures hold one timer each. *)
Lemma reachable_timers_ok_witness :
  let st := server (run Demo.pawnRules
                      [EvCreate Demo.alice Falsy "g1";
                       EvJoin Demo.bob "g1" 5000;
                       EvMove Demo.alice "g1" Demo.e2 Demo.e4 6000 6000]) in
  reachable Demo.pawnRules st
  /\ JsMap.get (gameTimeouts st) ("sockB", "g1") = Some 0%nat
  /\ JsMap.get (gameTimeouts st) ("sockA", "g1") = Some 1%nat.
Proof.
  intro st.
  assert (Hr : reachable Demo.pawnRules st).
  { exists [EvCreate Demo.alice Falsy "g1"; EvJoin Demo.bob "g1" 5000;
            EvMove Demo.alice "g1" Demo.e2 Demo.e4 6000 6000].
    split; reflexivity. }
  split; [exact Hr|].
  destruct (@reachable_timers_ok Demo.pawnRules st Hr) as [Hok _].
  split.
  - exact (proj2 (Hok 0%nat {| t_owner := "sockB"; t_game := "g1"; t_color := white;
                               t_due := 606000 |} eq_refl)).
  - exact (proj2 (Hok 1%nat {| t_owner := "sockA"; t_game := "g1"; t_color := black;
                               t_due := 607000 |} eq_refl)).
Defined.

(** The session of alice and bob would be saved for both. *)
Lemma reachable_saveGame_witness :
  let st := server (run Demo.pawnRules [EvCreate Demo.alice Falsy "g1";
                                        EvJoin Demo.bob "g1" 5000]) in
  let lost := {| winner := "white"; reason := "Timeout" |} in
  reachable Demo.pawnRules st
  /\ exists g w b, JsMap.get (games st) "g1" = Some g
                   /\ saveGame "g1" g lost = [DbSave "g1" w b lost].
Proof.
  intros st lost.
  assert (Hr : reachable Demo.pawnRules st).
  { exists [EvCreate Demo.alice Falsy "g1"; EvJoin Demo.bob "g1" 5000].
    split; reflexivity. }
  split; [exact Hr|].
  set (g := set_lastMoveTime
              (newGame {| p_id := "sockA"; p_user := Some "alice" |}
                 (Some {| p_id := "sockB"; p_user := Some "bob" |}) 600000)
              (Some 5000)).
  destruct (@reachable_saveGame Demo.pawnRules st "g1" g lost Hr eq_refl) as [_ Hb].
  destruct (Hb _ eq_refl) as (w & b & _ & _ & Hs).
  exists g, w, b. split; [reflexivity|exact Hs].
Defined.

(** Alice, to move, sends a move from row 9 to a square without a row. *)
Lemma on_move_payload_throws_iff_witness :
  let st := server (run Demo.pawnRules [EvCreate Demo.alice Falsy "g1";
                                        EvJoin Demo.bob "g1" 5000]) in
  reachable Demo.pawnRules st
  /\ on_move_payload Demo.pawnRules Demo.alice
       (MoveOf (Key "g1") (Square (9, 0)%nat) NoRow) 6000 6000 st = TypeError.
Proof.
  intro st.
  assert (Hr : reachable Demo.pawnRules st).
  { exists [EvCreate Demo.alice Falsy "g1"; EvJoin Demo.bob "g1" 5000].
    split; reflexivity. }
  split; [exact Hr|].
  apply (proj2 (@on_move_payload_throws_iff Demo.pawnRules Demo.alice
                  (MoveOf (Key "g1") (Square (9, 0)%nat) NoRow) 6000 6000 st Hr)).
  right. exists "g1", (Square (9, 0)%nat), NoRow. eexists.
  split; [reflexivity|]. split; [reflexivity|].
  right. split; [reflexivity|]. left. simpl. lia.
Defined.

(** Bob's join keeps alice in the white seat. *)
Lemma step_keeps_seats_witness :
  let st := server (run Demo.pawnRules [EvCreate Demo.alice Falsy "g1"]) in
  exists st' out g',
    step Demo.pawnRules (EvJoin Demo.bob "g1" 5000) st = Ret (st', out)
    /\ JsMap.get (games st') "g1" = Some g'
    /\ players_white g' = {| p_id := "sockA"; p_user := Some "alice" |}.
Proof.
  intro st.
  set (r := on_join Demo.bob "g1" 5000 st).
  assert (Hs : step Demo.pawnRules (EvJoin Demo.bob "g1" 5000) st = Ret (fst r, snd r)).
  { cbn [step]. fold r. now destruct r. }
  assert (Hg : exists g', JsMap.get (games (fst r)) "g1" = Some g').
  { eexists. vm_compute. reflexivity. }
  destruct Hg as [g' Hg'].
  exists (fst r), (snd r), g'. split; [exact Hs|]. split; [exact Hg'|].
  assert (Hfresh : ~ In "g1" (generated_ids [EvJoin Demo.bob "g1" 5000])) by (intros []).
  destruct (@step_keeps_seats Demo.pawnRules (EvJoin Demo.bob "g1" 5000) st (fst r) (snd r)
              "g1" Hs Hfresh) as [Hseats _].
  destruct (Hseats (newGame {| p_id := "sockA"; p_user := Some "alice" |} None 600000) g'
              eq_refl Hg') as [Hw _].
  exact Hw.
Defined.

(** Carol, unknown to the server, disconnects. *)
Lemma on_disconnect_stranger_witness :
  let st := server (run Demo.pawnRules [EvCreate Demo.alice Falsy "g1";
                                        EvJoin Demo.bob "g1" 5000]) in
  let carol := {| id := "sockC"; user := Some "carol" |} in
  on_disconnect carol st = (st, []).
Proof.
  intros st carol.
  apply on_disconnect_stranger.
  - intros s [].
  - intros k g [Heq|[]]. inversion Heq. reflexivity.
Defined.

